(** * Logistics route optimizer: the routing core of [main.py]

    A shallow embedding of the network model ([add_location], [add_route],
    the sample network), of [dijkstra], of [find_multi_stop_route], of
    [calculate_route] and its totals loop, of the handlers
    [add_new_location], [add_new_route] and [remove_location], and of what
    the window takes from the network ([update_all_combos],
    [update_stops_list], the positions read by [draw_network]), followed
    by the properties the specification states about them and by further
    properties of the same code.  The construction of the widgets and the
    rendering are not modelled.

    Conventions.
    - Location names are Python [str]; weights are Python [int]s, modelled
      as [Z] (the sample network has integer weights; the rounding of
      floating-point weights typed into the entry fields is outside the
      model); [float('inf')] is the extra value [Inf] of [num].
    - A [networkx.Graph] keeps insertion-ordered dictionaries and the code
      iterates over them ([nodes()], [neighbors()], [edges()]), so the graph
      is an ordered dictionary (an association list in insertion order).
      Dictionaries and sets that are only looked up ([distances],
      [visited], attribute dictionaries, [locations], [edge_weights]) are
      [gmap]s and [gset]s.
    - An exception is an explicit [Raise] outcome; the two [while] loops
      take fuel, and the top-level functions pass a bound computed from
      their arguments, which the theorems show to be enough. *)

From stdpp Require Import gmap strings list fin_maps.
From Stdlib Require Import ZArith QArith Lia.

Local Open Scope Z_scope.

(** ** Python values, exceptions *)

(** The numbers that occur as accumulated weights. *)
Inductive num : Type :=
| Fin (z : Z)
| Inf.

Global Instance num_eq_dec : EqDecision num.
Proof. solve_decision. Defined.

(** [a < b] on Python numbers. *)
Definition num_ltb (a b : num) : bool :=
  match a, b with
  | Fin x, Fin y => bool_decide (x < y)
  | Fin _, Inf => true
  | Inf, _ => false
  end.

Global Arguments num_ltb : simpl never.

(** [a + b] on Python numbers. *)
Definition num_add (a b : num) : num :=
  match a, b with
  | Fin x, Fin y => Fin (x + y)
  | _, _ => Inf
  end.

Inductive exn : Type :=
| NetworkXError (n : string)   (* "The node n is not in the graph." *)
| KeyError (k : string)
| TypeError.

(** What running a piece of the program gives: a value, an exception, or
    [NoFuel] when a loop of the model was not given enough iterations. *)
Inductive result (A : Type) : Type :=
| Ret (a : A)
| Raise (e : exn)
| NoFuel.
Global Arguments Ret {A} a.
Global Arguments Raise {A} e.
Global Arguments NoFuel {A}.

Global Instance result_ret : MRet result := @Ret.
Global Instance result_bind : MBind result := λ A B f m,
  match m with
  | Ret a => f a
  | Raise e => Raise e
  | NoFuel => NoFuel
  end.

(** A planar position: two coordinates, stored and handed to the renderer,
    never computed with.  The literal [0.1] of the source is [1 # 10]. *)
Abbreviation pos := (Q * Q)%type.

(** ** Insertion-ordered dictionaries with [str] keys *)

Section odict.
Context {V : Type}.

(** [d.get(k)] *)
Fixpoint od_get (k : string) (d : list (string * V)) : option V :=
  match d with
  | [] => None
  | (k', v) :: d' => if decide (k = k') then Some v else od_get k d'
  end.

(** [d[k] = v]: replaces the value in place, or appends a new key. *)
Fixpoint od_set (k : string) (v : V) (d : list (string * V)) : list (string * V) :=
  match d with
  | [] => [(k, v)]
  | (k', v') :: d' =>
      if decide (k = k') then (k, v) :: d' else (k', v') :: od_set k v d'
  end.

(** [del d[k]] for a key that may be absent. *)
Fixpoint od_del (k : string) (d : list (string * V)) : list (string * V) :=
  match d with
  | [] => []
  | (k', v') :: d' =>
      if decide (k = k') then d' else (k', v') :: od_del k d'
  end.

(** [list(d)] *)
Definition od_keys (d : list (string * V)) : list string := d.*1.
End odict.

(** ** [networkx.Graph] *)

(** A node of the graph: its attribute dictionary ([{'pos': ...}], or [{}]
    for a node that [add_edge] created) and its adjacency dictionary
    neighbour -> edge attribute dictionary. *)
Record NodeEntry : Type := {
  n_attr : gmap string pos;
  n_adj : list (string * gmap string Z)
}.

Abbreviation Graph := (list (string * NodeEntry)).

(** [nx.Graph()] *)
Definition empty_graph : Graph := [].

(** [n in G], [n in G.nodes()] *)
Definition has_node (g : Graph) (n : string) : bool :=
  bool_decide (is_Some (od_get n g)).

(** [G.nodes()] *)
Definition nodes (g : Graph) : list string := od_keys g.

(** [G.add_node(n, **attr)]: a new node gets [attr] and no neighbours; on
    an existing node the attributes are updated. *)
Definition add_node (n : string) (attr : gmap string pos) (g : Graph) : Graph :=
  match od_get n g with
  | None => od_set n {| n_attr := attr; n_adj := [] |} g
  | Some e => od_set n {| n_attr := attr ∪ n_attr e; n_adj := n_adj e |} g
  end.

(** The part of [add_edge] that adds a missing endpoint. *)
Definition ensure_node (n : string) (g : Graph) : Graph :=
  match od_get n g with
  | None => od_set n {| n_attr := ∅; n_adj := [] |} g
  | Some _ => g
  end.

(** [G._adj[u][v] = d] for a node [u] of the graph. *)
Definition set_adj (u v : string) (d : gmap string Z) (g : Graph) : Graph :=
  match od_get u g with
  | None => g
  | Some e => od_set u {| n_attr := n_attr e; n_adj := od_set v d (n_adj e) |} g
  end.

(** [G[u][v]] when present *)
Definition edge_data (g : Graph) (u v : string) : option (gmap string Z) :=
  e ← od_get u g; od_get v (n_adj e).

(** [G.add_edge(u, v, **attr)]: missing endpoints are added, the attribute
    dictionary of the edge is created or updated, and stored under both
    directions. *)
Definition add_edge (u v : string) (attr : gmap string Z) (g : Graph) : Graph :=
  let g1 := ensure_node v (ensure_node u g) in
  let datadict := attr ∪ default ∅ (edge_data g1 u v) in
  set_adj v u datadict (set_adj u v datadict g1).

(** [G.has_edge(u, v)] *)
Definition has_edge (g : Graph) (u v : string) : bool :=
  bool_decide (is_Some (edge_data g u v)).

(** [G.neighbors(n)] *)
Definition neighbors (g : Graph) (n : string) : result (list string) :=
  match od_get n g with
  | None => Raise (NetworkXError n)
  | Some e => Ret (od_keys (n_adj e))
  end.

(** [G[u][v]] *)
Definition getitem2 (g : Graph) (u v : string) : result (gmap string Z) :=
  match od_get u g with
  | None => Raise (KeyError u)
  | Some e =>
      match od_get v (n_adj e) with
      | None => Raise (KeyError v)
      | Some d => Ret d
      end
  end.

(** [G.edges(data=True)]: every node in order, with those of its
    neighbours that were not reported from the other side already. *)
Fixpoint edges_from (seen : list string) (g : Graph)
  : list (string * string * gmap string Z) :=
  match g with
  | [] => []
  | (n, e) :: g' =>
      ((λ x : string * gmap string Z, (n, x.1, x.2)) <$>
         filter (λ x : string * gmap string Z, x.1 ∉ seen) (n_adj e))
      ++ edges_from (n :: seen) g'
  end.

Definition edges (g : Graph) : list (string * string * gmap string Z) :=
  edges_from [] g.

(** [G.number_of_edges()] *)
Definition number_of_edges (g : Graph) : nat := length (edges g).

(** ** The optimizer's network state *)

Record Optimizer : Type := {
  graph : Graph;
  locations : gmap string pos;
  edge_weights : gmap (string * string) (gmap string Z)
}.

(** The state [__init__] sets up before the sample data. *)
Definition empty_optimizer : Optimizer :=
  {| graph := empty_graph; locations := ∅; edge_weights := ∅ |}.

(** The keyword arguments [distance=..., time=..., cost=...]. *)
Definition weights (distance time cost : Z) : gmap string Z :=
  <["distance" := distance]> (<["time" := time]> (<["cost" := cost]> ∅)).

Definition add_location (name : string) (p : pos) (s : Optimizer) : Optimizer :=
  {| graph := add_node name {["pos" := p]} (graph s);
     locations := <[name := p]> (locations s);
     edge_weights := edge_weights s |}.

Definition add_route (from_loc to_loc : string) (distance time cost : Z)
    (s : Optimizer) : Optimizer :=
  {| graph := add_edge from_loc to_loc (weights distance time cost) (graph s);
     locations := locations s;
     edge_weights :=
       <[(from_loc, to_loc) := weights distance time cost]> (edge_weights s) |}.

Definition sample_locations : list (string * pos) :=
  [ ("Warehouse", (1 # 10, 5 # 10)%Q);
    ("City_A", (3 # 10, 8 # 10)%Q);
    ("City_B", (5 # 10, 6 # 10)%Q);
    ("City_C", (7 # 10, 9 # 10)%Q);
    ("City_D", (6 # 10, 3 # 10)%Q);
    ("City_E", (9 # 10, 5 # 10)%Q);
    ("Hub_1", (4 # 10, 4 # 10)%Q);
    ("Hub_2", (7 # 10, 6 # 10)%Q) ].

Definition sample_edges : list (string * string * (Z * Z * Z)) :=
  [ ("Warehouse", "City_A", (25, 30, 15));
    ("Warehouse", "Hub_1", (20, 25, 12));
    ("City_A", "City_B", (18, 22, 10));
    ("City_B", "Hub_1", (15, 18, 9));
    ("City_B", "City_C", (22, 28, 13));
    ("City_B", "Hub_2", (16, 20, 11));
    ("City_C", "Hub_2", (12, 15, 8));
    ("City_C", "City_E", (20, 24, 12));
    ("Hub_1", "City_D", (14, 17, 9));
    ("City_D", "Hub_2", (13, 16, 8));
    ("City_D", "City_E", (19, 23, 11));
    ("Hub_2", "City_E", (17, 21, 10)) ].

Definition initialize_sample_data (s : Optimizer) : Optimizer :=
  let s1 := foldl (λ s (lp : string * pos), add_location lp.1 lp.2 s)
              s sample_locations in
  foldl (λ s (e : string * string * (Z * Z * Z)),
           let '(u, v, (d, t, c)) := e in add_route u v d t c s)
    s1 sample_edges.

(** The network a freshly started application holds. *)
Definition sample_optimizer : Optimizer := initialize_sample_data empty_optimizer.
Definition sample_graph : Graph := graph sample_optimizer.

(** ** [heapq] on a list of [(weight, node, path)] tuples *)

Abbreviation entry := (Z * string * list string)%type.

(** [a < b] on lists of strings. *)
Fixpoint path_ltb (a b : list string) : bool :=
  match a, b with
  | _, [] => false
  | [], _ :: _ => true
  | x :: a', y :: b' => if decide (x = y) then path_ltb a' b' else String.ltb x y
  end.

(** [a < b] on the tuples: by weight, then node name, then path. *)
Definition entry_ltb (a b : entry) : bool :=
  if decide (a.1.1 = b.1.1) then
    if decide (a.1.2 = b.1.2) then path_ltb a.2 b.2 else String.ltb a.1.2 b.1.2
  else bool_decide (a.1.1 < b.1.1).

(** The heap is kept as the list of its items; which of them [heappop]
    returns does not depend on how [heapq] arranges them. *)
Definition heappush (pq : list entry) (e : entry) : list entry := e :: pq.

(** [heappop] returns the smallest item and removes it; [None] on the empty
    heap (the loop tests [while pq] first). *)
Fixpoint heappop (pq : list entry) : option (entry * list entry) :=
  match pq with
  | [] => None
  | e :: rest =>
      match heappop rest with
      | None => Some (e, [])
      | Some (m, rest') =>
          if entry_ltb m e then Some (m, e :: rest') else Some (e, rest)
      end
  end.

(** ** [dijkstra] *)

Abbreviation frontier := (list entry * gmap string num)%type.

(** The body of [for neighbor in self.graph.neighbors(current_node)], on
    the pair of the heap and the [distances] dictionary. *)
Definition relax (g : Graph) (weight_type : string)
    (current_node : string) (current_weight : Z) (path : list string)
    (visited : gset string) (st : frontier) (neighbor : string)
  : result frontier :=
  if decide (neighbor ∈ visited) then Ret st
  else
    edge_data ← getitem2 g current_node neighbor;
    let weight := default 1 (edge_data !! weight_type) in
    let new_weight := current_weight + weight in
    match st.2 !! neighbor with
    | None => Raise (KeyError neighbor)
    | Some d =>
        if num_ltb (Fin new_weight) d then
          Ret (heappush st.1 (new_weight, neighbor, path ++ [neighbor]),
               <[neighbor := Fin new_weight]> st.2)
        else Ret st
    end.

(** The whole [for] loop. *)
Fixpoint relax_all (g : Graph) (weight_type : string)
    (current_node : string) (current_weight : Z) (path : list string)
    (visited : gset string) (st : frontier) (nbrs : list string)
  : result frontier :=
  match nbrs with
  | [] => Ret st
  | neighbor :: nbrs' =>
      st' ← relax g weight_type current_node current_weight path visited st neighbor;
      relax_all g weight_type current_node current_weight path visited st' nbrs'
  end.

(** [while pq: ...], one unit of fuel per iteration. The value is the
    returned pair [(path, weight)]. *)
Fixpoint dijkstra_loop (fuel : nat) (g : Graph) (end_ weight_type : string)
    (pq : list entry) (visited : gset string) (distances : gmap string num)
  : result (option (list string) * num) :=
  match fuel with
  | O => NoFuel
  | S fuel' =>
      match heappop pq with
      | None => Ret (None, Inf)
      | Some ((current_weight, current_node, path), pq1) =>
          if decide (current_node ∈ visited) then
            dijkstra_loop fuel' g end_ weight_type pq1 visited distances
          else
            let visited' := {[current_node]} ∪ visited in
            if decide (current_node = end_) then
              Ret (Some path, Fin current_weight)
            else
              nbrs ← neighbors g current_node;
              st ← relax_all g weight_type current_node current_weight
                     path visited' (pq1, distances) nbrs;
              dijkstra_loop fuel' g end_ weight_type st.1 visited' st.2
      end
  end.

(** The number of adjacency entries of the graph (twice the number of
    edges that are not self-loops, plus the self-loops). *)
Definition total_degree (g : Graph) : nat :=
  sum_list_with (λ ne : string * NodeEntry, length (n_adj ne.2)) g.

(** Every iteration pops one item, and a node pushes at most one item per
    neighbour, once: the loop runs at most this often. *)
Definition dijkstra_fuel (g : Graph) : nat := S (S (total_degree g)).

(** [{node: float('inf') for node in self.graph.nodes()}] *)
Definition init_distances (g : Graph) : gmap string num :=
  list_to_map ((λ n : string, (n, Inf)) <$> nodes g).

Definition dijkstra (g : Graph) (start end_ weight_type : string)
  : result (option (list string) * num) :=
  let pq := [(0, start, [start])] in
  let visited := ∅ in
  let distances := <[start := Fin 0]> (init_distances g) in
  dijkstra_loop (dijkstra_fuel g) g end_ weight_type pq visited distances.

(** ** [find_multi_stop_route] *)

(** The three running-best variables [(nearest, min_dist, best_path)]. *)
Abbreviation best := (option string * num * option (list string))%type.

(** Truth value of a returned path: [None] and [[]] are false. *)
Definition truthy (path : option (list string)) : bool :=
  match path with
  | Some (_ :: _) => true
  | _ => false
  end.

(** [for stop in unvisited: ...] over the stops in the order the set
    yields them. *)
Fixpoint scan_stops (g : Graph) (weight_type current : string)
    (b : best) (stops : list string) : result best :=
  match stops with
  | [] => Ret b
  | stop :: stops' =>
      r ← dijkstra g current stop weight_type;
      scan_stops g weight_type current
        (if truthy r.1 && num_ltb r.2 b.1.2 then (Some stop, r.2, r.1) else b)
        stops'
  end.

Section planner.
(** The order in which a Python [set] of names yields its elements; the
    language fixes none. *)
Variable set_iter : gset string → list string.

(** [while unvisited: ...], one unit of fuel per iteration. *)
Fixpoint multi_stop_loop (fuel : nat) (g : Graph) (weight_type : string)
    (current : string) (unvisited : gset string)
    (route : list string) (total_weight : num)
  : result (list string * num) :=
  if decide (unvisited = ∅) then Ret (route, total_weight)
  else
    match fuel with
    | O => NoFuel
    | S fuel' =>
        b ← scan_stops g weight_type current (None, Inf, None) (set_iter unvisited);
        match b.1.1 with
        | None => Ret (route, total_weight)
        | Some nearest =>
            match b.2 with
            | None => Raise TypeError
            | Some best_path =>
                if decide (nearest ∈ unvisited) then
                  multi_stop_loop fuel' g weight_type nearest
                    (unvisited ∖ {[nearest]})
                    (route ++ tail best_path)
                    (num_add total_weight b.1.2)
                else Raise (KeyError nearest)
            end
        end
    end.

Definition find_multi_stop_route (g : Graph) (start : string)
    (stops : list string) (weight_type : string)
  : result (list string * num) :=
  match stops with
  | [] => Ret ([start], Fin 0)
  | _ =>
      let unvisited : gset string := list_to_set stops in
      multi_stop_loop (size unvisited) g weight_type start unvisited
        [start] (Fin 0)
  end.
End planner.

(** ** The totals of [calculate_route] *)

(** One round of [for i in range(len(route) - 1)], on the triple
    [(total_distance, total_time, total_cost)]. *)
Definition add_leg (g : Graph) (u v : string) (totals : Z * Z * Z) : Z * Z * Z :=
  if has_edge g u v then
    match edge_data g u v with
    | Some edge =>
        (totals.1.1 + default 0 (edge !! "distance"),
         totals.1.2 + default 0 (edge !! "time"),
         totals.2 + default 0 (edge !! "cost"))
    | None => totals
    end
  else totals.

Fixpoint route_totals (g : Graph) (route : list string) (totals : Z * Z * Z)
  : Z * Z * Z :=
  match route with
  | u :: (v :: _) as route' => route_totals g route' (add_leg g u v totals)
  | _ => totals
  end.

(** Lines 442-452 of [calculate_route]. *)
Definition calculate_route_totals (g : Graph) (route : list string) : Z * Z * Z :=
  route_totals g route (0, 0, 0).

(** ** [calculate_route] *)

(** What [calculate_route] leaves on the screen: a warning box, or the
    summary written to the result field.  The summary is kept as the
    values its lines of text are formatted from: the metric (printed in
    upper case), the route (one numbered line per location; the same list
    goes to [draw_network] as the path to highlight), the three totals and
    the count of stops. *)
Inductive summary : Type :=
| SummaryWarning (message : string)
| SummaryReport (weight_type : string) (route : list string)
    (total_distance total_time total_cost : Z) (stops_visited : nat).

Section route_handler.
Variable set_iter : gset string → list string.

(** [calculate_route], from the selected start, the names selected in the
    list of stops and the selected metric. *)
Definition calculate_route (start : string) (selected : list string)
    (weight_type : string) (g : Graph) : result summary :=
  if decide (start = "") then
    Ret (SummaryWarning "Please select a starting location!")
  else
    let stops := filter (λ s, s ≠ start) selected in
    match stops with
    | [] => Ret (SummaryWarning "Please select at least one delivery stop!")
    | _ =>
        rw ← find_multi_stop_route set_iter g start stops weight_type;
        let route := rw.1 in
        let totals := calculate_route_totals g route in
        Ret (SummaryReport weight_type route totals.1.1 totals.1.2 totals.2
               (length stops))
    end.
End route_handler.

(** ** The handlers that guard the two mutations *)

Inductive dialog : Type :=
| ShowWarning (message : string)
| ShowInfo (message : string).

(** [add_new_location], from the stripped text of the name field and the
    position it draws. *)
Definition add_new_location (name : string) (p : pos) (s : Optimizer)
  : Optimizer * dialog :=
  if decide (name = "") then (s, ShowWarning "Please enter a location name!")
  else if has_node (graph s) name then (s, ShowWarning "Location already exists!")
  else (add_location name p s,
        ShowInfo ("Location '" +:+ name +:+ "' added successfully!")).

(** [add_new_route], from the two selected names and the three numbers
    read from the entry fields.  The conversion of the fields by [float]
    (and the warning on [ValueError], which leaves the network unchanged)
    comes after the two guards and is not part of the model: the numbers
    are given already converted. *)
Definition add_new_route (from_loc to_loc : string) (distance time cost : Z)
    (s : Optimizer) : Optimizer * dialog :=
  if decide (from_loc = "" ∨ to_loc = "") then
    (s, ShowWarning "Please select both locations!")
  else if decide (from_loc = to_loc) then
    (s, ShowWarning "Cannot create route to same location!")
  else (add_route from_loc to_loc distance time cost s,
        ShowInfo ("Route added: " +:+ from_loc +:+ " ↔ " +:+ to_loc)).

(** ** Removing a location *)

(** [del G._adj[u][n]] *)
Definition del_adj (u n : string) (g : Graph) : result Graph :=
  match od_get u g with
  | None => Raise (KeyError u)
  | Some e =>
      match od_get n (n_adj e) with
      | None => Raise (KeyError n)
      | Some _ =>
          Ret (od_set u {| n_attr := n_attr e; n_adj := od_del n (n_adj e) |} g)
      end
  end.

(** [for u in nbrs: del adj[u][n]] *)
Fixpoint del_adj_all (nbrs : list string) (n : string) (g : Graph) : result Graph :=
  match nbrs with
  | [] => Ret g
  | u :: nbrs' => g' ← del_adj u n g; del_adj_all nbrs' n g'
  end.

(** [G.remove_node(n)]: the node goes, with every edge that touches it. *)
Definition remove_node (n : string) (g : Graph) : result Graph :=
  match od_get n g with
  | None => Raise (NetworkXError n)
  | Some e => g' ← del_adj_all (od_keys (n_adj e)) n g; Ret (od_del n g')
  end.

(** [remove_location], from the selected name and the answer to the
    confirmation dialog. *)
Definition remove_location (loc : string) (confirmed : bool) (s : Optimizer)
  : result (Optimizer * option dialog) :=
  if decide (loc = "") then
    Ret (s, Some (ShowWarning "Please select a location to remove!"))
  else if confirmed then
    g' ← remove_node loc (graph s);
    Ret ({| graph := g';
            locations := delete loc (locations s);
            edge_weights := edge_weights s |},
         Some (ShowInfo ("Location '" +:+ loc +:+ "' removed!")))
  else Ret (s, None).

(** The networks the application can hold: it starts from the empty
    network ([__init__] fills in the sample data with the same two
    operations) and changes it by [add_location], [add_route] and
    [remove_location] only. *)
Inductive built : Optimizer → Prop :=
| built_empty : built empty_optimizer
| built_add_location s name p : built s → built (add_location name p s)
| built_add_route s a b distance time cost :
    built s → built (add_route a b distance time cost s)
| built_remove_location s loc s' dlg :
    built s → remove_location loc true s = Ret (s', dlg) → built s'.

(** ** The window: what the widgets offer, what the drawing reads *)

(** The values offered by the four combo boxes and the items of the list
    of stops. *)
Record Widgets : Type := {
  start_values : list string;
  from_values : list string;
  to_values : list string;
  remove_values : list string;
  stops_items : list string
}.

(** [update_stops_list]: the list is emptied and filled with the nodes. *)
Definition update_stops_list (s : Optimizer) (w : Widgets) : Widgets :=
  {| start_values := start_values w;
     from_values := from_values w;
     to_values := to_values w;
     remove_values := remove_values w;
     stops_items := foldl (λ items node, items ++ [node]) [] (nodes (graph s)) |}.

(** [update_all_combos] *)
Definition update_all_combos (s : Optimizer) (w : Widgets) : Widgets :=
  let nodes := nodes (graph s) in
  update_stops_list s
    {| start_values := nodes;
       from_values := nodes;
       to_values := nodes;
       remove_values := nodes;
       stops_items := stops_items w |}.

(** [nx.get_node_attributes(G, name)]: the nodes that have the attribute,
    with its value. *)
Definition get_node_attributes (g : Graph) (name : string) : gmap string pos :=
  list_to_map
    (omap (λ ne : string * NodeEntry, (λ v, (ne.1, v)) <$> n_attr ne.2 !! name) g).

(** The networks that can be reached through the handlers of the window,
    from the sample network that [__init__] sets up. *)
Inductive handled : Optimizer → Prop :=
| handled_init : handled sample_optimizer
| handled_add_new_location s name p :
    handled s → handled (add_new_location name p s).1
| handled_add_new_route s a b distance time cost :
    handled s → handled (add_new_route a b distance time cost s).1
| handled_remove_location s loc confirmed s' dlg :
    handled s → remove_location loc confirmed s = Ret (s', dlg) → handled s'.

(** ** Paths, and the conditions the network operations maintain *)

(** The weight [dijkstra] reads on the edge [u]-[v]:
    [self.graph[u][v].get(weight_type, 1)]. *)
Definition edge_weight (g : Graph) (weight_type u v : string) : Z :=
  match edge_data g u v with
  | Some d => default 1 (d !! weight_type)
  | None => 0
  end.

(** A path: at least one location, consecutive locations joined by a route. *)
Fixpoint valid_path (g : Graph) (p : list string) : bool :=
  match p with
  | [] => false
  | [_] => true
  | u :: (v :: _) as p' => has_edge g u v && valid_path g p'
  end.

Definition is_path (g : Graph) (s e : string) (p : list string) : Prop :=
  valid_path g p = true ∧ head p = Some s ∧ last p = Some e.

Global Instance is_path_dec g s e p : Decision (is_path g s e p).
Proof. unfold is_path. apply _. Defined.

(** The summed weight of a path under a metric. *)
Fixpoint path_weight (g : Graph) (weight_type : string) (p : list string) : Z :=
  match p with
  | u :: (v :: _) as p' => edge_weight g weight_type u v + path_weight g weight_type p'
  | _ => 0
  end.

(** Every adjacency entry has its mirror image with the same attribute
    dictionary: the graph is undirected, and every neighbour is a node. *)
Definition undirected (g : Graph) : Prop :=
  Forall (λ ne : string * NodeEntry,
    Forall (λ vd : string * gmap string Z,
      edge_data g vd.1 ne.1 = Some vd.2) (n_adj ne.2)) g.

Global Instance undirected_dec g : Decision (undirected g).
Proof. unfold undirected. apply _. Defined.

(** No edge has a negative weight under the metric. *)
Definition nonneg_weights (g : Graph) (weight_type : string) : Prop :=
  Forall (λ ne : string * NodeEntry,
    Forall (λ vd : string * gmap string Z,
      0 ≤ default 1 (vd.2 !! weight_type)) (n_adj ne.2)) g.

Global Instance nonneg_weights_dec g wt : Decision (nonneg_weights g wt).
Proof. unfold nonneg_weights. apply _. Defined.

(** The attributes [add_route] stores on an edge. *)
Definition attr_names : gset string := {["distance"; "time"; "cost"]}.

(** The edges carry no other attribute. *)
Definition standard_attrs (g : Graph) : Prop :=
  Forall (λ ne : string * NodeEntry,
    Forall (λ vd : string * gmap string Z,
      dom vd.2 ⊆ attr_names) (n_adj ne.2)) g.

Global Instance standard_attrs_dec g : Decision (standard_attrs g).
Proof. unfold standard_attrs. apply _. Defined.

(** *** The state of the search loop

    What holds of the heap [pq], the set [visited] and the dictionary
    [distances] each time [dijkstra] is at the head of its [while] loop. *)

(** Every item of the heap carries a path from [start] to its node, and
    the weight of that path. *)
Definition sound_queue (g : Graph) (wt start : string) (pq : list entry) : Prop :=
  ∀ d v p, (d, v, p) ∈ pq → is_path g start v p ∧ path_weight g wt p = d.

(** [distances] has a key for every node of the graph. *)
Definition covers (g : Graph) (dist : gmap string num) : Prop :=
  ∀ v, is_Some (od_get v g) → is_Some (dist !! v).

(** The number of adjacency entries of the nodes not visited yet: a bound
    on the items still to be pushed. *)
Definition pending_degree (g : Graph) (visited : gset string) : nat :=
  sum_list_with (λ ne : string * NodeEntry,
                   if decide (ne.1 ∈ visited) then 0%nat else length (n_adj ne.2)) g.

(** The invariant of the search under non-negative weights. While the
    neighbours of the node [cn] are being relaxed, [todo] lists those still
    to come; at the head of the [while] loop [todo] is empty. *)
Record search_inv (g : Graph) (wt start : string) (cn : string) (todo : list string)
    (pq : list entry) (visited : gset string) (dist : gmap string num) : Prop := {
  inv_paths : sound_queue g wt start pq;
  inv_dom : covers g dist;
  (* the recorded distance of a node is at most the key of its items *)
  inv_upper : ∀ d v p, (d, v, p) ∈ pq → ∃ d', dist !! v = Some (Fin d') ∧ d' ≤ d;
  (* an unvisited node with a finite distance has an item with that key *)
  inv_queued : ∀ v d, v ∉ visited → dist !! v = Some (Fin d) → ∃ p, (d, v, p) ∈ pq;
  inv_start : start ∉ visited → dist !! start = Some (Fin 0);
  (* the distance of a visited node is final: no path is lighter *)
  inv_opt : ∀ u, u ∈ visited →
    ∃ du, dist !! u = Some (Fin du) ∧ ∀ q, is_path g start u q → du ≤ path_weight g wt q;
  (* the edges out of a visited node have been relaxed *)
  inv_closed : ∀ u v, u ∈ visited → is_Some (edge_data g u v) →
    (u = cn → v ∉ todo) →
    ∃ du dv, dist !! u = Some (Fin du) ∧ dist !! v = Some (Fin dv)
             ∧ dv ≤ du + edge_weight g wt u v
}.

(** A strict total order, given as a boolean test. *)
Record strict_total {A : Type} (lt : A → A → bool) : Prop := {
  st_irrefl : ∀ a, lt a a = false;
  st_asym : ∀ a b, lt a b = true → lt b a = false;
  st_cotrans : ∀ a b c, lt a c = true → lt a b = true ∨ lt b c = true;
  st_total : ∀ a b, lt a b = false → lt b a = false → a = b
}.

(** The lexicographic order on pairs. *)
Definition lex_ltb {A B : Type} `{EqDecision A}
    (ltA : A → A → bool) (ltB : B → B → bool) (a b : A * B) : bool :=
  if decide (a.1 = b.1) then ltB a.2 b.2 else ltA a.1 b.1.

(** What the three operations maintain: the dictionaries have no repeated
    key, every adjacency entry has its mirror image with the same
    attribute dictionary, and the attributes are those of [add_route]. *)
Record graph_wf (g : Graph) : Prop := {
  wf_nodes : NoDup (od_keys g);
  wf_adj : ∀ u e, od_get u g = Some e → NoDup (od_keys (n_adj e));
  wf_sym : ∀ u v d, edge_data g u v = Some d → edge_data g v u = Some d;
  wf_attrs : ∀ u v d, edge_data g u v = Some d → dom d ⊆ attr_names
}.

(** The keys of the graph and of its adjacency dictionaries: the
    locations with their neighbours, without the attribute values. *)
Definition graph_keys (g : Graph) : list (string * list string) :=
  (λ ne : string * NodeEntry, (ne.1, od_keys (n_adj ne.2))) <$> g.

(** Componentwise sum of two triples of totals. *)
Definition totals_add (a b : Z * Z * Z) : Z * Z * Z :=
  (a.1.1 + b.1.1, a.1.2 + b.1.2, a.2 + b.2).

(** Every item of the heap carries a path from [start] to its node with
    the weight of that path; the path repeats no location, and its
    locations other than the last are visited already.  This holds of
    every graph, whatever its weights. *)
Definition tracked_queue (g : Graph) (wt start : string) (visited : gset string)
    (pq : list entry) : Prop :=
  ∀ d v p, (d, v, p) ∈ pq →
    is_path g start v p ∧ path_weight g wt p = d ∧ NoDup p
    ∧ ∀ x, x ∈ p → x = v ∨ x ∈ visited.


(** Every edge carries the three attributes of [add_route]. *)
Definition full_attrs (g : Graph) : Prop :=
  Forall (λ ne : string * NodeEntry,
    Forall (λ vd : string * gmap string Z,
      attr_names ⊆ dom vd.2) (n_adj ne.2)) g.

Global Instance full_attrs_dec g : Decision (full_attrs g).
Proof. unfold full_attrs. apply _. Defined.

(** The nodes [edges] has gone past when it reaches the node [u]: the
    neighbours of [u] it does not report again. *)
Fixpoint seen_before (u : string) (seen : list string) (g : Graph) : list string :=
  match g with
  | [] => seen
  | (n, _) :: g' => if decide (u = n) then seen else seen_before u (n :: seen) g'
  end.

(** * Properties *)

(** ** Ordered dictionaries *)

Section odict_facts.
Context {V : Type}.
Implicit Types (d : list (string * V)) (k : string) (v : V).

Lemma od_get_set_eq k v d : od_get k (od_set k v d) = Some v.
Proof.
  induction d as [|[k' v'] d IH]; simpl.
  - by rewrite decide_True.
  - destruct (decide (k = k')) as [->|Hne]; simpl.
    + by rewrite decide_True.
    + by rewrite decide_False.
Qed.

Lemma od_get_set_ne k k' v d : k ≠ k' → od_get k' (od_set k v d) = od_get k' d.
Proof.
  intros Hne. induction d as [|[k0 v0] d IH]; simpl.
  - by rewrite decide_False.
  - destruct (decide (k = k0)) as [->|Hne0]; simpl.
    + by rewrite !decide_False.
    + destruct (decide (k' = k0)); done.
Qed.

Lemma od_get_elem_of k v d : od_get k d = Some v → (k, v) ∈ d.
Proof.
  induction d as [|[k' v'] d IH]; simpl; [done|].
  destruct (decide (k = k')) as [->|Hne].
  - intros [= ->]. left.
  - intros H. right. auto.
Qed.

Lemma od_get_is_Some k d : is_Some (od_get k d) ↔ k ∈ od_keys d.
Proof.
  unfold od_keys. induction d as [|[k' v'] d IH]; simpl.
  - split; [by intros [? ?]|by intros ?%elem_of_nil].
  - destruct (decide (k = k')) as [->|Hne].
    + split; [intros _; left|eauto].
    + rewrite IH, elem_of_cons. naive_solver.
Qed.

Lemma od_keys_set_present k v d :
  is_Some (od_get k d) → od_keys (od_set k v d) = od_keys d.
Proof.
  unfold od_keys. induction d as [|[k' v'] d IH]; simpl.
  - by intros [? ?].
  - destruct (decide (k = k')) as [->|Hne]; simpl; [done|].
    intros H. f_equal. by apply IH.
Qed.

Lemma od_keys_set_absent k v d :
  od_get k d = None → od_keys (od_set k v d) = od_keys d ++ [k].
Proof.
  unfold od_keys. induction d as [|[k' v'] d IH]; simpl; [done|].
  destruct (decide (k = k')) as [->|Hne]; simpl; [done|].
  intros H. f_equal. by apply IH.
Qed.
End odict_facts.

(** ** The graph operations *)

Lemma has_node_spec g n : has_node g n = true ↔ is_Some (od_get n g).
Proof. unfold has_node. by rewrite bool_decide_eq_true. Qed.

Lemma has_node_false g n : has_node g n = false ↔ od_get n g = None.
Proof.
  unfold has_node. rewrite bool_decide_eq_false, eq_None_not_Some. done.
Qed.

Lemma has_edge_spec g u v : has_edge g u v = true ↔ is_Some (edge_data g u v).
Proof. unfold has_edge. by rewrite bool_decide_eq_true. Qed.

Lemma edge_data_Some g u v d :
  edge_data g u v = Some d ↔ ∃ e, od_get u g = Some e ∧ od_get v (n_adj e) = Some d.
Proof.
  unfold edge_data. destruct (od_get u g) as [e|]; simpl; naive_solver.
Qed.

Lemma ensure_node_get n g : is_Some (od_get n (ensure_node n g)).
Proof.
  unfold ensure_node. destruct (od_get n g) eqn:E; [by rewrite E|].
  rewrite od_get_set_eq. done.
Qed.

Lemma ensure_node_get_ne n m g : n ≠ m → od_get m (ensure_node n g) = od_get m g.
Proof.
  intros Hne. unfold ensure_node. destruct (od_get n g); [done|].
  by apply od_get_set_ne.
Qed.

Lemma ensure_node_mono n m g :
  is_Some (od_get m g) → od_get m (ensure_node n g) = od_get m g.
Proof.
  intros Hm. unfold ensure_node. destruct (od_get n g) eqn:E; [done|].
  apply od_get_set_ne. intros ->. rewrite E in Hm. by destruct Hm.
Qed.

Lemma ensure_node_present n g : is_Some (od_get n g) → ensure_node n g = g.
Proof. intros [e He]. unfold ensure_node. by rewrite He. Qed.

Lemma set_adj_get_eq u v d g e :
  od_get u g = Some e →
  od_get u (set_adj u v d g)
  = Some {| n_attr := n_attr e; n_adj := od_set v d (n_adj e) |}.
Proof. intros He. unfold set_adj. rewrite He. apply od_get_set_eq. Qed.

Lemma set_adj_get_ne u v d g m : u ≠ m → od_get m (set_adj u v d g) = od_get m g.
Proof.
  intros Hne. unfold set_adj. destruct (od_get u g); [|done].
  by apply od_get_set_ne.
Qed.

Lemma set_adj_nodes u v d g : nodes (set_adj u v d g) = nodes g.
Proof.
  unfold set_adj, nodes. destruct (od_get u g) eqn:E; [|done].
  apply od_keys_set_present. by rewrite E.
Qed.

(** After [add_edge u v attr] both endpoints are nodes and both directions
    carry the same dictionary, in which the new attributes win. *)
Lemma add_edge_data u v attr g :
  let d := attr ∪ default ∅ (edge_data (ensure_node v (ensure_node u g)) u v) in
  edge_data (add_edge u v attr g) u v = Some d
  ∧ edge_data (add_edge u v attr g) v u = Some d.
Proof.
  intros d. unfold add_edge. fold d.
  set (g1 := ensure_node v (ensure_node u g)).
  assert (is_Some (od_get u g1)) as [eu Hu].
  { unfold g1. destruct (decide (v = u)) as [->|Hne].
    - apply ensure_node_get.
    - rewrite ensure_node_get_ne by done. apply ensure_node_get. }
  assert (is_Some (od_get v g1)) as [ev Hv] by apply ensure_node_get.
  destruct (decide (u = v)) as [->|Hne].
  - assert (edge_data (set_adj v v d (set_adj v v d g1)) v v = Some d) as H.
    { apply edge_data_Some. eexists. split.
      - erewrite set_adj_get_eq; [done|]. by erewrite set_adj_get_eq.
      - simpl. apply od_get_set_eq. }
    done.
  - split; apply edge_data_Some.
    + eexists. split.
      * rewrite set_adj_get_ne by done. by erewrite set_adj_get_eq.
      * simpl. apply od_get_set_eq.
    + eexists. split.
      * erewrite set_adj_get_eq; [done|]. by rewrite set_adj_get_ne.
      * simpl. apply od_get_set_eq.
Qed.

Lemma weights_lookup distance time cost :
  weights distance time cost !! "distance" = Some distance
  ∧ weights distance time cost !! "time" = Some time
  ∧ weights distance time cost !! "cost" = Some cost.
Proof. unfold weights. by simplify_map_eq. Qed.

(** ** The sample network *)

Lemma sample_graph_undirected : undirected sample_graph.
Proof. compute_done. Qed.

Lemma sample_graph_standard_attrs : standard_attrs sample_graph.
Proof. compute_done. Qed.

(** The routes of the sample network with their distances, in the order
    [edges()] reports them. *)
Lemma sample_graph_distances :
  (λ x : string * string * gmap string Z, (x.1.1, x.1.2, x.2 !! "distance"))
    <$> edges sample_graph
  = [ ("Warehouse", "City_A", Some 25); ("Warehouse", "Hub_1", Some 20);
      ("City_A", "City_B", Some 18); ("City_B", "Hub_1", Some 15);
      ("City_B", "City_C", Some 22); ("City_B", "Hub_2", Some 16);
      ("City_C", "Hub_2", Some 12); ("City_C", "City_E", Some 20);
      ("City_D", "Hub_1", Some 14); ("City_D", "Hub_2", Some 13);
      ("City_D", "City_E", Some 19); ("City_E", "Hub_2", Some 17) ].
Proof. vm_compute. reflexivity. Qed.

(** C2, as the specification states it, fails: the path through Hub_2 with
    weight 64 is a path of the sample network, but it is not what
    [dijkstra] returns. *)
Lemma dijkstra_sample_is_not_via_hub2 :
  is_path sample_graph "Warehouse" "City_E"
    ["Warehouse"; "Hub_1"; "City_D"; "Hub_2"; "City_E"]
  ∧ path_weight sample_graph "distance"
      ["Warehouse"; "Hub_1"; "City_D"; "Hub_2"; "City_E"] = 64
  ∧ dijkstra sample_graph "Warehouse" "City_E" "distance"
    ≠ Ret (Some ["Warehouse"; "Hub_1"; "City_D"; "Hub_2"; "City_E"], Fin 64).
Proof. split; [compute_done|]. split; [vm_compute; reflexivity|]. vm_compute. discriminate. Qed.

(** C2 (amended): on the sample network, [dijkstra] from Warehouse to
    City_E under distance returns exactly the path
    [Warehouse, Hub_1, City_D, City_E] with total weight 53 = 20 + 14 + 19,
    using the direct route City_D - City_E of distance 19. *)
Theorem dijkstra_sample_warehouse_city_e :
  dijkstra sample_graph "Warehouse" "City_E" "distance"
  = Ret (Some ["Warehouse"; "Hub_1"; "City_D"; "City_E"], Fin 53)
  ∧ path_weight sample_graph "distance"
      ["Warehouse"; "Hub_1"; "City_D"; "City_E"] = 53.
Proof. split; vm_compute; reflexivity. Qed.

(** ** [dijkstra] from a location to itself *)

(** C6: for every network, every metric and every location X (present in
    the network or not), [dijkstra] from X to X returns the single-node
    path [X] with total weight 0. *)
Theorem dijkstra_start_is_end (g : Graph) (X m : string) :
  dijkstra g X X m = Ret (Some [X], Fin 0).
Proof.
  unfold dijkstra, dijkstra_fuel. simpl.
  rewrite decide_False by set_solver. by rewrite decide_True.
Qed.

(** ** The totals of a route *)


Lemma totals_add_0_l a : totals_add (0, 0, 0) a = a.
Proof. by destruct a as [[??]?]. Qed.








(** ** [add_location] on a name that is present *)

Lemma add_node_present_get n attr g e :
  od_get n g = Some e →
  od_get n (add_node n attr g) = Some {| n_attr := attr ∪ n_attr e; n_adj := n_adj e |}.
Proof. intros He. unfold add_node. rewrite He. apply od_get_set_eq. Qed.

Lemma add_node_get_ne n m attr g : n ≠ m → od_get m (add_node n attr g) = od_get m g.
Proof.
  intros Hne. unfold add_node. destruct (od_get n g); by apply od_get_set_ne.
Qed.

Lemma add_node_present_nodes n attr g :
  is_Some (od_get n g) → nodes (add_node n attr g) = nodes g.
Proof.
  intros [e He]. unfold add_node, nodes. rewrite He.
  apply od_keys_set_present. by rewrite He.
Qed.

Lemma add_node_present_edge_data n attr g u v :
  is_Some (od_get n g) → edge_data (add_node n attr g) u v = edge_data g u v.
Proof.
  intros [e He]. unfold edge_data. destruct (decide (n = u)) as [->|Hne].
  - erewrite add_node_present_get by done. by rewrite He.
  - by rewrite add_node_get_ne.
Qed.

(** C7, as the specification states it, fails: adding the present name
    "Warehouse" again raises nothing and replaces the stored position. *)
Lemma add_location_again_moves_warehouse :
  has_node (graph sample_optimizer) "Warehouse" = true
  ∧ locations sample_optimizer !! "Warehouse" = Some (1 # 10, 5 # 10)%Q
  ∧ locations (add_location "Warehouse" (9 # 10, 9 # 10)%Q sample_optimizer)
      !! "Warehouse" = Some (9 # 10, 9 # 10)%Q
  ∧ add_location "Warehouse" (9 # 10, 9 # 10)%Q sample_optimizer ≠ sample_optimizer.
Proof.
  split; [reflexivity|]. split; [vm_compute; reflexivity|].
  split; [vm_compute; reflexivity|].
  intros H. apply (f_equal (λ s, locations s !! "Warehouse")) in H.
  vm_compute in H. discriminate.
Qed.

(** C7 (amended): for every network and every name already present,
    [add_location] does not fail; it leaves the list of locations (hence
    the location count) and every route unchanged, leaves every other
    location as it was, and replaces the stored position of the named
    location by the new one, in the graph and in [locations].  The
    rejection of a present name is the caller's: [add_new_location] shows
    a warning and leaves the network unchanged. *)
Theorem add_location_present (s : Optimizer) (name : string) (p : pos) :
  has_node (graph s) name = true →
  nodes (graph (add_location name p s)) = nodes (graph s)
  ∧ (∀ u v, edge_data (graph (add_location name p s)) u v = edge_data (graph s) u v)
  ∧ (∀ n, n ≠ name →
       od_get n (graph (add_location name p s)) = od_get n (graph s)
       ∧ locations (add_location name p s) !! n = locations s !! n)
  ∧ locations (add_location name p s) !! name = Some p
  ∧ (od_get name (graph (add_location name p s)) ≫= λ e, n_attr e !! "pos") = Some p
  ∧ (name ≠ "" →
       add_new_location name p s = (s, ShowWarning "Location already exists!")).
Proof.
  intros Hn. pose proof Hn as Hn'. apply has_node_spec in Hn' as [e He].
  unfold add_location; simpl. repeat split.
  - apply add_node_present_nodes. by rewrite He.
  - intros u v. apply add_node_present_edge_data. by rewrite He.
  - by apply add_node_get_ne.
  - by rewrite lookup_insert_ne.
  - by rewrite lookup_insert_eq.
  - erewrite add_node_present_get by done. simpl.
    rewrite lookup_union_l'; [by rewrite lookup_singleton_eq|].
    by rewrite lookup_singleton_eq.
  - intros Hne. unfold add_new_location.
    rewrite decide_False by done. by rewrite Hn.
Qed.

Lemma add_location_present_witness :
  nodes (graph (add_location "Warehouse" (9 # 10, 9 # 10)%Q sample_optimizer))
  = nodes (graph sample_optimizer)
  ∧ (∀ u v, edge_data (graph (add_location "Warehouse" (9 # 10, 9 # 10)%Q sample_optimizer)) u v
            = edge_data (graph sample_optimizer) u v)
  ∧ (∀ n, n ≠ "Warehouse" →
       od_get n (graph (add_location "Warehouse" (9 # 10, 9 # 10)%Q sample_optimizer))
       = od_get n (graph sample_optimizer)
       ∧ locations (add_location "Warehouse" (9 # 10, 9 # 10)%Q sample_optimizer) !! n
         = locations sample_optimizer !! n)
  ∧ locations (add_location "Warehouse" (9 # 10, 9 # 10)%Q sample_optimizer) !! "Warehouse"
    = Some (9 # 10, 9 # 10)%Q
  ∧ (od_get "Warehouse" (graph (add_location "Warehouse" (9 # 10, 9 # 10)%Q sample_optimizer))
       ≫= λ e, n_attr e !! "pos") = Some (9 # 10, 9 # 10)%Q
  ∧ ("Warehouse" ≠ "" →
       add_new_location "Warehouse" (9 # 10, 9 # 10)%Q sample_optimizer
       = (sample_optimizer, ShowWarning "Location already exists!")).
Proof.
  apply (add_location_present sample_optimizer "Warehouse" (9 # 10, 9 # 10)%Q).
  reflexivity.
Defined.

(** ** [add_route] on absent or equal endpoints *)

Lemma add_edge_has_nodes u v attr g :
  is_Some (od_get u (add_edge u v attr g)) ∧ is_Some (od_get v (add_edge u v attr g)).
Proof.
  destruct (add_edge_data u v attr g) as [H1 H2].
  apply edge_data_Some in H1 as (e1 & -> & _).
  apply edge_data_Some in H2 as (e2 & -> & _). done.
Qed.

Lemma set_adj_attr u v d g m :
  n_attr <$> od_get m (set_adj u v d g) = n_attr <$> od_get m g.
Proof.
  unfold set_adj. destruct (od_get u g) as [e|] eqn:E; [|done].
  destruct (decide (u = m)) as [->|Hne].
  - by rewrite od_get_set_eq, E.
  - by rewrite od_get_set_ne.
Qed.

(** A location that [add_edge] has to create gets an empty attribute
    dictionary: it has no position. *)
Lemma add_edge_new_node_attr u v attr g m :
  od_get m g = None → (m = u ∨ m = v) →
  n_attr <$> od_get m (add_edge u v attr g) = Some ∅.
Proof.
  intros Hm Huv. unfold add_edge. rewrite !set_adj_attr.
  assert (n_attr <$> od_get m (ensure_node u g)
          = if decide (m = u) then Some ∅ else None) as H1.
  { unfold ensure_node. destruct (decide (m = u)) as [->|Hne].
    - rewrite Hm. by rewrite od_get_set_eq.
    - destruct (od_get u g); [by rewrite Hm|].
      rewrite od_get_set_ne by done. by rewrite Hm. }
  unfold ensure_node at 1.
  destruct (od_get v (ensure_node u g)) as [ev|] eqn:Ev.
  - rewrite H1. destruct (decide (m = u)) as [->|Hne]; [done|].
    destruct Huv as [?| ->]; [done|]. by rewrite Ev in H1.
  - destruct (decide (v = m)) as [->|Hne].
    + by rewrite od_get_set_eq.
    + rewrite od_get_set_ne by done. rewrite H1.
      destruct Huv as [->| ->]; [by rewrite decide_True|done].
Qed.

(** C4, as the specification states it, fails: on the sample network
    [add_route] with two absent endpoints creates both locations and the
    route, and [add_route] from a location to itself creates a self-loop. *)
Lemma add_route_creates_locations_and_loops :
  has_node sample_graph "Depot" = false
  ∧ has_node sample_graph "Port" = false
  ∧ nodes (graph (add_route "Depot" "Port" 1 2 3 sample_optimizer))
    = nodes sample_graph ++ ["Depot"; "Port"]
  ∧ number_of_edges (graph (add_route "Depot" "Port" 1 2 3 sample_optimizer)) = 13%nat
  ∧ number_of_edges sample_graph = 12%nat
  ∧ has_edge (graph (add_route "Hub_1" "Hub_1" 1 2 3 sample_optimizer)) "Hub_1" "Hub_1" = true
  ∧ number_of_edges (graph (add_route "Hub_1" "Hub_1" 1 2 3 sample_optimizer)) = 13%nat.
Proof. repeat split; vm_compute; reflexivity. Qed.

(** C4 (amended): [add_route] never fails and never leaves the network
    unchanged: afterwards both endpoints are locations of the graph (an
    absent endpoint is created, without a position and without an entry in
    [locations]) and the route exists in both directions with the given
    weights, also when the two endpoints are the same location.  The
    rejection of equal endpoints is the caller's: [add_new_route] shows a
    warning and leaves the network unchanged. *)
Theorem add_route_always_adds (s : Optimizer) (a b : string) (distance time cost : Z) :
  has_node (graph (add_route a b distance time cost s)) a = true
  ∧ has_node (graph (add_route a b distance time cost s)) b = true
  ∧ (∃ w, edge_data (graph (add_route a b distance time cost s)) a b = Some w
        ∧ edge_data (graph (add_route a b distance time cost s)) b a = Some w
        ∧ w !! "distance" = Some distance
        ∧ w !! "time" = Some time
        ∧ w !! "cost" = Some cost)
  ∧ locations (add_route a b distance time cost s) = locations s
  ∧ (∀ m, has_node (graph s) m = false → (m = a ∨ m = b) →
       n_attr <$> od_get m (graph (add_route a b distance time cost s)) = Some ∅)
  ∧ (a ≠ "" →
       add_new_route a a distance time cost s
       = (s, ShowWarning "Cannot create route to same location!")).
Proof.
  unfold add_route; simpl.
  destruct (add_edge_has_nodes a b (weights distance time cost) (graph s)) as [Ha Hb].
  destruct (add_edge_data a b (weights distance time cost) (graph s)) as [Hab Hba].
  destruct (weights_lookup distance time cost) as (Wd & Wt & Wc).
  split; [by apply has_node_spec|]. split; [by apply has_node_spec|].
  split.
  { eexists. split; [exact Hab|]. split; [exact Hba|].
    repeat split; by apply lookup_union_Some_l. }
  split; [done|]. split.
  { intros m Hm Hab'. apply add_edge_new_node_attr; [|done].
    by apply has_node_false. }
  intros Hne. unfold add_new_route.
  rewrite decide_False by (intros [?|?]; done). by rewrite decide_True.
Qed.

(** ** Edges and paths *)

Lemma undirected_sym g u v d :
  undirected g → edge_data g u v = Some d → edge_data g v u = Some d.
Proof.
  intros Hg (e & Hu & Hv)%edge_data_Some.
  apply od_get_elem_of in Hu, Hv.
  unfold undirected in Hg. rewrite Forall_forall in Hg.
  specialize (Hg _ Hu). simpl in Hg. rewrite Forall_forall in Hg.
  exact (Hg _ Hv).
Qed.

Lemma edge_target_is_node g u v :
  undirected g → is_Some (edge_data g u v) → is_Some (od_get v g).
Proof.
  intros Hg [d Hd]. apply (undirected_sym g u v d Hg) in Hd.
  apply edge_data_Some in Hd as (e & He & _). by rewrite He.
Qed.

Lemma neighbors_Ret g u nbrs :
  neighbors g u = Ret nbrs →
  is_Some (od_get u g) ∧ ∀ v, v ∈ nbrs ↔ is_Some (edge_data g u v).
Proof.
  unfold neighbors, edge_data. destruct (od_get u g) as [e|]; [|done].
  intros [= <-]. split; [done|]. intros v. simpl. by rewrite od_get_is_Some.
Qed.

Lemma neighbors_node g u :
  is_Some (od_get u g) → ∃ e, od_get u g = Some e ∧ neighbors g u = Ret (od_keys (n_adj e)).
Proof. intros [e He]. exists e. unfold neighbors. by rewrite He. Qed.

Lemma getitem2_edge g u v d : edge_data g u v = Some d → getitem2 g u v = Ret d.
Proof.
  intros (e & Hu & Hv)%edge_data_Some. unfold getitem2. by rewrite Hu, Hv.
Qed.

Lemma edge_weight_Some g wt u v d :
  edge_data g u v = Some d → edge_weight g wt u v = default 1 (d !! wt).
Proof. intros H. unfold edge_weight. by rewrite H. Qed.

Lemma nonneg_edge_weight g wt u v :
  nonneg_weights g wt → 0 ≤ edge_weight g wt u v.
Proof.
  intros Hg. unfold edge_weight. destruct (edge_data g u v) as [d|] eqn:E; [|done].
  apply edge_data_Some in E as (e & Hu & Hv).
  apply od_get_elem_of in Hu, Hv.
  unfold nonneg_weights in Hg. rewrite Forall_forall in Hg.
  specialize (Hg _ Hu). simpl in Hg. rewrite Forall_forall in Hg.
  exact (Hg _ Hv).
Qed.

Lemma standard_attrs_weight g wt u v :
  standard_attrs g → wt ∉ attr_names → is_Some (edge_data g u v) →
  edge_weight g wt u v = 1.
Proof.
  intros Hg Hwt [d E]. unfold edge_weight. rewrite E.
  apply edge_data_Some in E as (e & Hu & Hv).
  apply od_get_elem_of in Hu, Hv.
  unfold standard_attrs in Hg. rewrite Forall_forall in Hg.
  specialize (Hg _ Hu). simpl in Hg. rewrite Forall_forall in Hg.
  specialize (Hg _ Hv). simpl in Hg.
  assert (d !! wt = None) as ->; [|done].
  apply not_elem_of_dom. set_solver.
Qed.

Lemma standard_attrs_nonneg g wt :
  standard_attrs g → wt ∉ attr_names → nonneg_weights g wt.
Proof.
  intros Hg Hwt. unfold standard_attrs, nonneg_weights in *.
  eapply Forall_impl; [exact Hg|]. intros ne Hne. simpl in *.
  eapply Forall_impl; [exact Hne|]. intros vd Hvd. simpl in *.
  assert (vd.2 !! wt = None) as ->; [|done].
  apply not_elem_of_dom. set_solver.
Qed.

Lemma is_path_single g s : is_path g s s [s].
Proof. done. Qed.

Lemma valid_path_snoc g p u v :
  valid_path g p = true → last p = Some u → has_edge g u v = true →
  valid_path g (p ++ [v]) = true.
Proof.
  induction p as [|x [|y p] IH]; [done| |].
  - simpl. intros _ [= ->] ->. done.
  - intros Hv Hl He.
    change (has_edge g x y && valid_path g ((y :: p) ++ [v]) = true).
    change (has_edge g x y && valid_path g (y :: p) = true) in Hv.
    apply andb_true_iff in Hv as [Hxy Hv]. rewrite Hxy. simpl.
    apply IH; done.
Qed.

Lemma is_path_snoc g s u v p :
  is_path g s u p → has_edge g u v = true → is_path g s v (p ++ [v]).
Proof.
  intros (Hv & Hh & Hl) He. split; [by eapply valid_path_snoc|].
  split; [|by rewrite last_snoc].
  destruct p; [done|]. done.
Qed.

Lemma path_weight_snoc g wt p u v :
  last p = Some u →
  path_weight g wt (p ++ [v]) = path_weight g wt p + edge_weight g wt u v.
Proof.
  induction p as [|x [|y p] IH]; [done| |].
  - simpl. intros [= ->]. lia.
  - intros Hl.
    change (edge_weight g wt x y + path_weight g wt ((y :: p) ++ [v])
            = edge_weight g wt x y + path_weight g wt (y :: p) + edge_weight g wt u v).
    rewrite IH by done. lia.
Qed.

Lemma is_path_snoc_inv g s v p x :
  is_path g s v ((x :: p) ++ [v]) →
  ∃ u, is_path g s u (x :: p) ∧ has_edge g u v = true.
Proof.
  intros (Hv & Hh & _). simpl in Hh. injection Hh as ->.
  revert s Hv. induction p as [|y p IH]; intros s Hv.
  - simpl in Hv. apply andb_true_iff in Hv as [He _]. by exists s.
  - change (has_edge g s y && valid_path g ((y :: p) ++ [v]) = true) in Hv.
    apply andb_true_iff in Hv as [Hsy Hv].
    destruct (IH y Hv) as (u & (Hv' & _ & Hl) & He).
    exists u. split; [|done]. split; [|split; [done|]].
    + change (has_edge g s y && valid_path g (y :: p) = true). by rewrite Hsy.
    + done.
Qed.

Lemma is_path_last g s e p v : is_path g s e (p ++ [v]) → e = v.
Proof. intros (_ & _ & Hl). rewrite last_snoc in Hl. by injection Hl. Qed.

Lemma path_weight_nonneg g wt p : nonneg_weights g wt → 0 ≤ path_weight g wt p.
Proof.
  intros Hg. induction p as [|x [|y p] IH]; [done|done|].
  change (0 ≤ edge_weight g wt x y + path_weight g wt (y :: p)).
  pose proof (nonneg_edge_weight g wt x y Hg). lia.
Qed.

Lemma is_path_end_is_node g s e p :
  undirected g → is_Some (od_get s g) → is_path g s e p → is_Some (od_get e g).
Proof.
  intros Hg Hs Hp. destruct p as [|v p _] using rev_ind.
  { by destruct Hp as [? _]. }
  pose proof (is_path_last _ _ _ _ _ Hp) as ->.
  destruct p as [|x p].
  - destruct Hp as (_ & Hh & _). simpl in Hh. by injection Hh as ->.
  - apply is_path_snoc_inv in Hp as (u & _ & He).
    apply has_edge_spec in He. by eapply edge_target_is_node.
Qed.

(** With every weight equal to one the weight of a path is its number of
    edges. *)
Lemma path_weight_hops g wt p :
  (∀ u v, is_Some (edge_data g u v) → edge_weight g wt u v = 1) →
  valid_path g p = true → path_weight g wt p = Z.of_nat (length p) - 1.
Proof.
  intros H1. induction p as [|x [|y p] IH]; [done|done|].
  intros Hv.
  change (has_edge g x y && valid_path g (y :: p) = true) in Hv.
  apply andb_true_iff in Hv as [Hxy Hv].
  change (edge_weight g wt x y + path_weight g wt (y :: p)
          = Z.of_nat (length (x :: y :: p)) - 1).
  rewrite IH by done. rewrite H1 by by apply has_edge_spec.
  simpl length. lia.
Qed.

(** ** The heap *)

Lemma entry_ltb_weight a b :
  (if entry_ltb a b then a.1.1 ≤ b.1.1 else b.1.1 ≤ a.1.1).
Proof.
  unfold entry_ltb. destruct (decide (a.1.1 = b.1.1)) as [Heq|Hne].
  - rewrite Heq. match goal with |- if ?c then _ else _ => destruct c end; lia.
  - case_bool_decide; lia.
Qed.

Lemma heappop_None pq : heappop pq = None → pq = [].
Proof.
  destruct pq as [|e rest]; [done|]. simpl.
  destruct (heappop rest) as [[m rest']|]; [|done].
  by destruct (entry_ltb m e).
Qed.

Lemma heappop_perm pq m rest : heappop pq = Some (m, rest) → pq ≡ₚ m :: rest.
Proof.
  revert m rest. induction pq as [|e pq IH]; intros m rest; [done|]. simpl.
  destruct (heappop pq) as [[m' rest']|] eqn:E.
  - specialize (IH _ _ eq_refl). destruct (entry_ltb m' e).
    + intros [= <- <-]. rewrite IH. apply Permutation_swap.
    + by intros [= <- <-].
  - apply heappop_None in E as ->. by intros [= <- <-].
Qed.

Lemma heappop_min pq m rest :
  heappop pq = Some (m, rest) → ∀ x, x ∈ pq → m.1.1 ≤ x.1.1.
Proof.
  intros H x; revert H.
  revert m rest. induction pq as [|e pq IH]; intros m rest; [done|]. simpl.
  destruct (heappop pq) as [[m' rest']|] eqn:E.
  - pose proof (entry_ltb_weight m' e) as Hlt.
    destruct (entry_ltb m' e); intros [= <- <-]; intros [->|Hx]%elem_of_cons;
      try lia; try (specialize (IH _ _ eq_refl Hx); lia).
  - apply heappop_None in E as ->. intros [= <- <-].
    intros [->|Hx]%elem_of_cons; [lia|]. by apply elem_of_nil in Hx.
Qed.

Lemma heappop_elem pq m rest :
  heappop pq = Some (m, rest) → ∀ x, x ∈ pq ↔ x = m ∨ x ∈ rest.
Proof. intros H%heappop_perm x. rewrite H. apply elem_of_cons. Qed.

Lemma heappop_length pq m rest :
  heappop pq = Some (m, rest) → length pq = S (length rest).
Proof. intros H%heappop_perm. by rewrite H. Qed.

(** *** The order of the heap items

    The comparison of the tuples is a strict total order, so the heap has
    one least item: what [heappop] returns, and what it leaves, is the same
    for every arrangement of the same items. *)

Lemma string_compare_refl (a : string) : String.compare a a = Eq.
Proof.
  pose proof (String.compare_antisym a a) as H.
  by destruct (String.compare a a).
Qed.

Lemma string_compare_lt_trans (a : string) : ∀ b c,
  String.compare a b = Lt → String.compare b c = Lt → String.compare a c = Lt.
Proof.
  induction a as [|x a IH]; intros [|y b] [|z c]; simpl; try done.
  unfold Ascii.compare.
  destruct (N.compare_spec (Ascii.N_of_ascii x) (Ascii.N_of_ascii y)) as [E1|L1|G1];
    try done;
    destruct (N.compare_spec (Ascii.N_of_ascii y) (Ascii.N_of_ascii z)) as [E2|L2|G2];
    try done;
    destruct (N.compare_spec (Ascii.N_of_ascii x) (Ascii.N_of_ascii z)) as [E3|L3|G3];
    try done; try lia.
  apply IH.
Qed.

Lemma string_ltb_strict_total : strict_total String.ltb.
Proof.
  unfold String.ltb. split.
  - intros a. by rewrite string_compare_refl.
  - intros a b. rewrite (String.compare_antisym b a).
    by destruct (String.compare a b).
  - intros a b c Hac.
    destruct (String.compare a c) eqn:Eac; try done.
    destruct (String.compare a b) eqn:Eab; [|by left|].
    + apply String.compare_eq_iff in Eab as ->. rewrite Eac. by right.
    + right. rewrite String.compare_antisym in Eab.
      destruct (String.compare b a) eqn:Eba; try done.
      by rewrite (string_compare_lt_trans b a c Eba Eac).
  - intros a b Hab Hba. apply String.compare_eq_iff.
    rewrite (String.compare_antisym b a) in Hba.
    by destruct (String.compare a b).
Qed.

Lemma Z_ltb_strict_total : strict_total (λ a b : Z, bool_decide (a < b)).
Proof.
  split.
  - intros a. apply bool_decide_eq_false. lia.
  - intros a b ?%bool_decide_eq_true. apply bool_decide_eq_false. lia.
  - intros a b c ?%bool_decide_eq_true. rewrite !bool_decide_eq_true. lia.
  - intros a b ?%bool_decide_eq_false ?%bool_decide_eq_false. lia.
Qed.

Lemma strict_total_neq {A} (lt : A → A → bool) a b :
  strict_total lt → a ≠ b → lt a b = true ∨ lt b a = true.
Proof.
  intros Hlt Hne. destruct (lt a b) eqn:E1; [by left|].
  destruct (lt b a) eqn:E2; [by right|].
  by destruct Hne; apply (st_total lt Hlt).
Qed.

Lemma lex_ltb_strict_total {A B} `{EqDecision A}
    (ltA : A → A → bool) (ltB : B → B → bool) :
  strict_total ltA → strict_total ltB → strict_total (lex_ltb ltA ltB).
Proof.
  intros HA HB. unfold lex_ltb. split.
  - intros [a1 a2]. simpl. rewrite decide_True by done. apply (st_irrefl _ HB).
  - intros [a1 a2] [b1 b2]. simpl.
    destruct (decide (a1 = b1)) as [->|Hne].
    + rewrite decide_True by done. apply (st_asym _ HB).
    + rewrite decide_False by done. apply (st_asym _ HA).
  - intros [a1 a2] [b1 b2] [c1 c2]. simpl.
    destruct (decide (a1 = c1)) as [->|Hac].
    + destruct (decide (c1 = b1)) as [->|Hcb].
      * rewrite decide_True by done. apply (st_cotrans _ HB).
      * rewrite decide_False by done. intros _.
        by apply strict_total_neq.
    + intros Hlt.
      destruct (st_cotrans _ HA a1 b1 c1 Hlt) as [H1|H1]; [left|right].
      * rewrite decide_False; [done|]. intros ->.
        by rewrite (st_irrefl _ HA) in H1.
      * rewrite decide_False; [done|]. intros ->.
        by rewrite (st_irrefl _ HA) in H1.
  - intros [a1 a2] [b1 b2]. simpl.
    destruct (decide (a1 = b1)) as [->|Hne].
    + rewrite decide_True by done. intros H1 H2.
      by rewrite (st_total _ HB a2 b2).
    + rewrite decide_False by done. intros H1 H2.
      by destruct Hne; apply (st_total _ HA).
Qed.

Lemma path_ltb_strict_total : strict_total path_ltb.
Proof.
  pose proof string_ltb_strict_total as HS. split.
  - intros a. induction a as [|x a IH]; [done|]. simpl. by rewrite decide_True.
  - intros a. induction a as [|x a IH]; intros [|y b]; simpl; try done.
    destruct (decide (x = y)) as [->|Hne].
    + rewrite decide_True by done. apply IH.
    + rewrite decide_False by done. apply (st_asym _ HS).
  - intros a. induction a as [|x a IH]; intros [|y b] [|z c]; simpl; try done;
      try (by left); try (by right).
    destruct (decide (x = z)) as [->|Hxz].
    + destruct (decide (z = y)) as [->|Hzy].
      * rewrite decide_True by done. apply IH.
      * rewrite decide_False by done. intros _. by apply strict_total_neq.
    + intros Hlt.
      destruct (st_cotrans _ HS x y z Hlt) as [H1|H1]; [left|right].
      * rewrite decide_False; [done|]. intros ->.
        by rewrite (st_irrefl _ HS) in H1.
      * rewrite decide_False; [done|]. intros ->.
        by rewrite (st_irrefl _ HS) in H1.
  - intros a. induction a as [|x a IH]; intros [|y b]; simpl; try done.
    destruct (decide (x = y)) as [->|Hne].
    + rewrite decide_True by done. intros H1 H2. by rewrite (IH b).
    + rewrite decide_False by done. intros H1 H2.
      by destruct Hne; apply (st_total _ HS).
Qed.

Lemma entry_ltb_lex (a b : entry) :
  entry_ltb a b
  = lex_ltb (λ x y : Z, bool_decide (x < y)) (lex_ltb String.ltb path_ltb)
      (a.1.1, (a.1.2, a.2)) (b.1.1, (b.1.2, b.2)).
Proof. done. Qed.

Lemma entry_ltb_strict_total : strict_total entry_ltb.
Proof.
  pose proof (lex_ltb_strict_total _ _ Z_ltb_strict_total
                (lex_ltb_strict_total _ _ string_ltb_strict_total
                   path_ltb_strict_total)) as [Hi Ha Hc Ht].
  split.
  - intros a. rewrite entry_ltb_lex. apply Hi.
  - intros a b. rewrite !entry_ltb_lex. apply Ha.
  - intros a b c. rewrite !entry_ltb_lex. apply Hc.
  - intros [[a1 a2] a3] [[b1 b2] b3]. rewrite !entry_ltb_lex. simpl.
    intros H1 H2. by injection (Ht _ _ H1 H2) as -> -> ->.
Qed.

(** [heappop] returns the least item. *)
Lemma heappop_least pq m rest :
  heappop pq = Some (m, rest) → ∀ x, x ∈ pq → entry_ltb x m = false.
Proof.
  pose proof entry_ltb_strict_total as [Hi Ha Hc Ht].
  revert m rest. induction pq as [|e pq IH]; intros m rest; [done|]. simpl.
  destruct (heappop pq) as [[m' rest']|] eqn:E.
  - specialize (IH _ _ eq_refl).
    destruct (entry_ltb m' e) eqn:Hlt; intros [= <- <-] x [->|Hx]%elem_of_cons.
    + by apply Ha.
    + by apply IH.
    + apply Hi.
    + destruct (entry_ltb x e) eqn:Hxe; [|done].
      destruct (Hc x m' e Hxe) as [H|H]; [|congruence].
      by rewrite (IH x Hx) in H.
  - apply heappop_None in E as ->. intros [= <- <-] x [->|Hx]%elem_of_cons.
    + apply Hi.
    + by apply elem_of_nil in Hx.
Qed.

(** Two arrangements of the same items give the same [heappop]. *)
Lemma heappop_arrangement pq pq' m rest m' rest' :
  pq ≡ₚ pq' → heappop pq = Some (m, rest) → heappop pq' = Some (m', rest') →
  m = m' ∧ rest ≡ₚ rest'.
Proof.
  intros Hperm H H'.
  pose proof (heappop_perm _ _ _ H) as Hp.
  pose proof (heappop_perm _ _ _ H') as Hp'.
  assert (m = m') as <-.
  { apply (st_total _ entry_ltb_strict_total).
    - apply (heappop_least _ _ _ H'). rewrite <- Hperm, Hp. left.
    - apply (heappop_least _ _ _ H). rewrite Hperm, Hp'. left. }
  split; [done|]. apply (Permutation_cons_inv (a := m)).
  by rewrite <- Hp, <- Hp'.
Qed.

(** ** The bound on the iterations of the search loop *)

Lemma pending_degree_mono (g : Graph) (visited : gset string) (v : string) :
  (pending_degree g ({[v]} ∪ visited) ≤ pending_degree g visited)%nat.
Proof.
  unfold pending_degree.
  induction g as [|[k e] g' IH]; [done|]. simpl.
  destruct (decide (k ∈ visited)).
  - rewrite decide_True by set_solver. lia.
  - destruct (decide (k ∈ {[v]} ∪ visited)); lia.
Qed.

Lemma pending_degree_visit (g : Graph) (visited : gset string) (v : string) e :
  od_get v g = Some e → v ∉ visited →
  (pending_degree g ({[v]} ∪ visited) + length (n_adj e) ≤ pending_degree g visited)%nat.
Proof.
  intros He Hv.
  induction g as [|[k e'] g' IH]; [done|].
  pose proof (pending_degree_mono g' visited v) as Hmono.
  unfold pending_degree in *. simpl in *.
  destruct (decide (v = k)) as [->|Hne].
  - injection He as ->. rewrite decide_True by set_solver.
    rewrite (decide_False (P := k ∈ visited)) by done. lia.
  - specialize (IH He).
    destruct (decide (k ∈ visited)).
    + rewrite decide_True by set_solver. lia.
    + rewrite decide_False by set_solver. lia.
Qed.

Lemma pending_degree_empty (g : Graph) : pending_degree g ∅ = total_degree g.
Proof.
  unfold pending_degree, total_degree.
  induction g as [|[k e] g' IH]; [done|]. simpl.
  rewrite decide_False by set_solver. by rewrite IH.
Qed.

(** ** [dijkstra]: the loop returns, and what it returns is a path *)

Section dijkstra_total.
Context (g : Graph) (wt start end_ : string).
Hypothesis Hund : undirected g.
Hypothesis Hstart : is_Some (od_get start g).

Lemma relax_cases cn cw path visited pq dist n de dn :
  edge_data g cn n = Some de → dist !! n = Some dn →
  relax g wt cn cw path visited (pq, dist) n
  = Ret (if decide (n ∈ visited) then (pq, dist)
         else if num_ltb (Fin (cw + edge_weight g wt cn n)) dn
              then ((cw + edge_weight g wt cn n, n, path ++ [n]) :: pq,
                    <[n := Fin (cw + edge_weight g wt cn n)]> dist)
              else (pq, dist)).
Proof.
  intros He Hd. unfold relax. destruct (decide (n ∈ visited)); [done|].
  rewrite (getitem2_edge _ _ _ _ He). simpl. rewrite Hd.
  rewrite (edge_weight_Some _ wt _ _ _ He).
  match goal with |- context [num_ltb ?a ?b] => by destruct (num_ltb a b) end.
Qed.

Lemma path_end_is_node v p : is_path g start v p → is_Some (od_get v g).
Proof. by apply is_path_end_is_node. Qed.

Lemma relax_basic cn cw path visited pq dist n :
  sound_queue g wt start pq → covers g dist →
  is_path g start cn path → path_weight g wt path = cw →
  is_Some (edge_data g cn n) →
  ∃ st', relax g wt cn cw path visited (pq, dist) n = Ret st'
         ∧ sound_queue g wt start st'.1 ∧ covers g st'.2
         ∧ (length st'.1 ≤ S (length pq))%nat.
Proof.
  intros Hq Hc Hp Hw [de He].
  destruct (Hc n) as [dn Hn]; [by eapply edge_target_is_node|].
  rewrite (relax_cases _ _ _ _ _ _ _ _ _ He Hn). eexists. split; [done|].
  destruct (decide (n ∈ visited)); [simpl; auto|].
  destruct (num_ltb _ _); [|simpl; auto]. simpl. split; [|split].
  - intros d v p [[= -> -> ->]|Hin]%elem_of_cons; [|by apply Hq].
    split.
    + eapply is_path_snoc; [done|]. apply has_edge_spec. by rewrite He.
    + destruct Hp as (_ & _ & Hl). rewrite (path_weight_snoc _ _ _ cn) by done. lia.
  - intros v Hv. destruct (decide (n = v)) as [->|Hne].
    + by rewrite lookup_insert_eq.
    + rewrite lookup_insert_ne by done. by apply Hc.
  - lia.
Qed.

Lemma relax_all_basic cn cw path visited nbrs : ∀ pq dist,
  sound_queue g wt start pq → covers g dist →
  is_path g start cn path → path_weight g wt path = cw →
  (∀ n, n ∈ nbrs → is_Some (edge_data g cn n)) →
  ∃ st', relax_all g wt cn cw path visited (pq, dist) nbrs = Ret st'
         ∧ sound_queue g wt start st'.1 ∧ covers g st'.2
         ∧ (length st'.1 ≤ length nbrs + length pq)%nat.
Proof.
  induction nbrs as [|n nbrs IH]; intros pq dist Hq Hc Hp Hw Hn.
  - exists (pq, dist). simpl. auto.
  - destruct (relax_basic cn cw path visited pq dist n Hq Hc Hp Hw) as
      ([pq1 dist1] & Hr & Hq1 & Hc1 & Hlen1); [apply Hn; left|].
    simpl. rewrite Hr. simpl.
    destruct (IH pq1 dist1 Hq1 Hc1 Hp Hw) as (st' & Hr' & Hq' & Hc' & Hlen').
    { intros m Hm. apply Hn. by right. }
    exists st'. rewrite Hr'. split; [done|]. split; [done|]. split; [done|].
    simpl in *. lia.
Qed.

Lemma dijkstra_loop_total fuel : ∀ pq visited dist,
  sound_queue g wt start pq → covers g dist →
  (length pq + pending_degree g visited < fuel)%nat →
  ∃ r, dijkstra_loop fuel g end_ wt pq visited dist = Ret r
       ∧ (r = (None, Inf)
          ∨ ∃ p d, r = (Some p, Fin d) ∧ is_path g start end_ p
                   ∧ path_weight g wt p = d).
Proof.
  induction fuel as [|fuel IH]; intros pq visited dist Hq Hc Hfuel; [lia|].
  simpl. destruct (heappop pq) as [[[[cw cn] path] pq1]|] eqn:Hpop.
  2: { eexists. split; [done|]. by left. }
  pose proof (heappop_elem _ _ _ Hpop) as Hel.
  pose proof (heappop_length _ _ _ Hpop) as Hlen.
  assert (sound_queue g wt start pq1) as Hq1.
  { intros d v p Hin. apply Hq, Hel. by right. }
  destruct (Hq cw cn path) as [Hp Hw]; [apply Hel; by left|].
  destruct (decide (cn ∈ visited)).
  { apply IH; [done|done|lia]. }
  destruct (decide (cn = end_)) as [->|Hne].
  { eexists. split; [done|]. right. by exists path, cw. }
  destruct (neighbors_node g cn) as (e & He & ->); [by eapply path_end_is_node|].
  simpl.
  destruct (relax_all_basic cn cw path ({[cn]} ∪ visited) (od_keys (n_adj e))
              pq1 dist Hq1 Hc Hp Hw) as ([pq2 dist2] & -> & Hq2 & Hc2 & Hlen2).
  { intros m Hm. unfold edge_data. rewrite He. simpl. by apply od_get_is_Some. }
  simpl. apply IH; [done|done|].
  pose proof (pending_degree_visit g visited cn e He n).
  unfold od_keys in Hlen2. rewrite length_fmap in Hlen2. simpl in *. lia.
Qed.

Lemma init_distances_covers : covers g (<[start := Fin 0]> (init_distances g)).
Proof.
  clear Hund Hstart.
  intros v Hv. destruct (decide (start = v)) as [->|Hne].
  - by rewrite lookup_insert_eq.
  - rewrite lookup_insert_ne by done. unfold init_distances.
    apply od_get_is_Some in Hv. exists Inf.
    apply (elem_of_list_to_map_1' _ v Inf).
    + intros y Hy. apply list_elem_of_fmap in Hy as (? & [= _ ->] & _). done.
    + apply list_elem_of_fmap. by exists v.
Qed.

Lemma initial_queue_sound : sound_queue g wt start [(0, start, [start])].
Proof. intros d v p [[= -> -> ->]|[]%elem_of_nil]%elem_of_cons. done. Qed.

(** [dijkstra] from a location of the network returns, without raising:
    either [(None, inf)], or a path from [start] to [end_] with its
    weight. *)
Lemma dijkstra_total :
  ∃ r, dijkstra g start end_ wt = Ret r
       ∧ (r = (None, Inf)
          ∨ ∃ p d, r = (Some p, Fin d) ∧ is_path g start end_ p
                   ∧ path_weight g wt p = d).
Proof.
  unfold dijkstra. apply dijkstra_loop_total.
  - apply initial_queue_sound.
  - apply init_distances_covers.
  - rewrite pending_degree_empty. unfold dijkstra_fuel. simpl. lia.
Qed.

End dijkstra_total.

(** ** [dijkstra]: what it returns is a lightest path *)

Section dijkstra_optimal.
Context (g : Graph) (wt start end_ : string).
Hypothesis Hund : undirected g.
Hypothesis Hnn : nonneg_weights g wt.

Lemma search_inv_todo_nil cn cn' pq visited dist :
  search_inv g wt start cn [] pq visited dist →
  search_inv g wt start cn' [] pq visited dist.
Proof.
  intros [Hq Hc Hup Hqd Hst Hopt Hcl]. split; try done.
  intros u v Hu He _. apply Hcl; [done|done|].
  intros _. apply not_elem_of_nil.
Qed.

(** Every path from [start] to a node that is not visited yet is at least
    as heavy as some item of the heap. *)
Lemma frontier_bound cn pq visited dist q : ∀ v,
  search_inv g wt start cn [] pq visited dist →
  is_path g start v q → v ∉ visited →
  ∃ d x p, (d, x, p) ∈ pq ∧ d ≤ path_weight g wt q.
Proof.
  induction q as [|v' q IH] using rev_ind; intros v Hinv Hp Hv.
  { by destruct Hp. }
  pose proof (is_path_last _ _ _ _ _ Hp) as ->.
  destruct Hinv as [Hq Hc Hup Hqd Hst Hopt Hcl].
  destruct q as [|x q].
  - destruct Hp as (_ & Hh & _). simpl in Hh. injection Hh as ->.
    destruct (Hqd start 0 Hv (Hst Hv)) as [p Hin].
    exists 0, start, p. split; [done|]. simpl. lia.
  - apply is_path_snoc_inv in Hp as (u & Hpu & He).
    rewrite (path_weight_snoc _ _ _ u) by apply Hpu.
    pose proof (nonneg_edge_weight g wt u v' Hnn).
    destruct (decide (u ∈ visited)) as [Hu|Hu].
    + destruct (Hcl u v' Hu) as (du & dv & Hdu & Hdv & Hle).
      { by apply has_edge_spec. }
      { intros _. apply not_elem_of_nil. }
      destruct (Hopt u Hu) as (du' & Hdu' & Ho).
      rewrite Hdu in Hdu'. injection Hdu' as <-.
      specialize (Ho _ Hpu).
      destruct (Hqd v' dv Hv Hdv) as [p Hin].
      exists dv, v', p. split; [done|lia].
    + destruct (IH u) as (d & x' & p & Hin & Hle); [done|done|done|].
      exists d, x', p. split; [done|lia].
Qed.

Lemma num_ltb_Fin_true a dn :
  num_ltb (Fin a) dn = true → ∀ y, dn = Fin y → a < y.
Proof. intros H y ->. unfold num_ltb in H. by case_bool_decide. Qed.

Lemma num_ltb_Fin_false a dn :
  num_ltb (Fin a) dn = false → ∃ y, dn = Fin y ∧ y ≤ a.
Proof.
  unfold num_ltb. destruct dn as [y|]; [|done].
  case_bool_decide; [done|]. intros _. exists y. split; [done|lia].
Qed.

(** One neighbour relaxed. *)
Lemma relax_inv cn cw path n todo pq visited dist :
  search_inv g wt start cn (n :: todo) pq visited dist →
  cn ∈ visited → is_path g start cn path → path_weight g wt path = cw →
  dist !! cn = Some (Fin cw) →
  is_Some (edge_data g cn n) →
  ∃ st', relax g wt cn cw path visited (pq, dist) n = Ret st'
         ∧ search_inv g wt start cn todo st'.1 visited st'.2
         ∧ st'.2 !! cn = Some (Fin cw).
Proof.
  intros Hinv Hcn Hp Hw Hdcn [de He].
  destruct (inv_dom _ _ _ _ _ _ _ _ Hinv n) as [dn Hn];
    [by eapply edge_target_is_node|].
  rewrite (relax_cases g wt cn cw path visited pq dist n de dn He Hn).
  eexists; split; [done|].
  set (w := edge_weight g wt cn n) in *.
  assert (0 ≤ w) as Hw0 by by apply nonneg_edge_weight.
  assert (0 ≤ cw) as Hcw0 by (rewrite <- Hw; by apply path_weight_nonneg).
  assert (is_path g start n (path ++ [n])) as Hpn.
  { eapply is_path_snoc; [done|]. apply has_edge_spec. by rewrite He. }
  assert (path_weight g wt (path ++ [n]) = cw + w) as Hwn.
  { rewrite (path_weight_snoc _ _ _ cn) by apply Hp. subst w. lia. }
  assert (∀ u v, (u = cn → v ∉ todo) → ¬ (u = cn ∧ v = n) → u = cn → v ∉ n :: todo)
    as Htodo_cons.
  { intros u v Ht Hneq Hu [->|Hin]%elem_of_cons; [by apply Hneq|by apply Ht]. }
  destruct Hinv as [Hq Hc Hup Hqd Hst Hopt Hcl].
  destruct (decide (n ∈ visited)) as [Hnv|Hnv].
  { simpl. split; [|done]. split; try done.
    intros u v Hu Hev Htodo.
    destruct (decide (u = cn ∧ v = n)) as [[-> ->]|Hneq].
    - destruct (Hopt n Hnv) as (dn' & Hdn' & Hoptn).
      exists cw, dn'. split; [done|]. split; [done|].
      specialize (Hoptn _ Hpn). subst w. lia.
    - apply Hcl; [done|done|]. by apply Htodo_cons. }
  assert (n ≠ cn) as Hncn by (intros ->; done).
  destruct (num_ltb (Fin (cw + w)) dn) eqn:Hlt; simpl.
  2: { split; [|done]. split; try done.
       intros u v Hu Hev Htodo.
       destruct (decide (u = cn ∧ v = n)) as [[-> ->]|Hneq].
       - apply num_ltb_Fin_false in Hlt as (y & -> & Hy).
         exists cw, y. split; [done|]. split; [done|]. subst w. lia.
       - apply Hcl; [done|done|]. by apply Htodo_cons. }
  pose proof (num_ltb_Fin_true _ _ Hlt) as Hless.
  split; [|by rewrite lookup_insert_ne]. split.
  - intros d v p [[= -> -> ->]|Hin]%elem_of_cons; [done|by apply Hq].
  - intros v Hv. destruct (decide (n = v)) as [->|Hne].
    + by rewrite lookup_insert_eq.
    + rewrite lookup_insert_ne by done. by apply Hc.
  - intros d v p [[= -> -> ->]|Hin]%elem_of_cons.
    + exists (cw + w). rewrite lookup_insert_eq. split; [done|lia].
    + destruct (Hup _ _ _ Hin) as (d' & Hd' & Hle).
      destruct (decide (n = v)) as [->|Hne].
      * exists (cw + w). rewrite lookup_insert_eq. split; [done|].
        rewrite Hn in Hd'. injection Hd' as ->. specialize (Hless _ eq_refl). lia.
      * exists d'. by rewrite lookup_insert_ne.
  - intros v d Hv Hd. destruct (decide (n = v)) as [->|Hne].
    + rewrite lookup_insert_eq in Hd. injection Hd as <-. eexists. left.
    + rewrite lookup_insert_ne in Hd by done.
      destruct (Hqd _ _ Hv Hd) as [p Hin]. exists p. by right.
  - intros Hs. destruct (decide (n = start)) as [->|Hne].
    + exfalso. specialize (Hst Hs). rewrite Hst in Hn. injection Hn as <-.
      specialize (Hless _ eq_refl). lia.
    + rewrite lookup_insert_ne by done. auto.
  - intros u Hu. destruct (Hopt u Hu) as (du & Hdu & Ho).
    exists du. split; [|done]. rewrite lookup_insert_ne; [done|].
    intros ->. done.
  - intros u v Hu Hev Htodo.
    assert (n ≠ u) as Hnu by (intros ->; done).
    destruct (decide (u = cn ∧ v = n)) as [[-> ->]|Hneq].
    + exists cw, (cw + w). rewrite lookup_insert_ne by done.
      rewrite lookup_insert_eq. split; [done|]. split; [done|]. subst w. lia.
    + destruct (Hcl u v Hu Hev) as (du & dv & Hdu & Hdv & Hle);
        [by apply Htodo_cons|].
      rewrite lookup_insert_ne by done.
      destruct (decide (n = v)) as [->|Hnev].
      * exists du, (cw + w). rewrite lookup_insert_eq.
        split; [done|]. split; [done|].
        rewrite Hn in Hdv. injection Hdv as ->. specialize (Hless _ eq_refl). lia.
      * exists du, dv. by rewrite lookup_insert_ne.
Qed.

(** All neighbours relaxed. *)
Lemma relax_all_inv cn cw path visited todo : ∀ pq dist,
  search_inv g wt start cn todo pq visited dist →
  cn ∈ visited → is_path g start cn path → path_weight g wt path = cw →
  dist !! cn = Some (Fin cw) →
  (∀ n, n ∈ todo → is_Some (edge_data g cn n)) →
  ∃ st', relax_all g wt cn cw path visited (pq, dist) todo = Ret st'
         ∧ search_inv g wt start cn [] st'.1 visited st'.2.
Proof.
  induction todo as [|n todo IH]; intros pq dist Hinv Hcn Hp Hw Hd Hn.
  - exists (pq, dist). by split.
  - destruct (relax_inv cn cw path n todo pq visited dist Hinv Hcn Hp Hw Hd)
      as ([pq1 dist1] & Hr & Hinv1 & Hd1); [apply Hn; left|].
    simpl. rewrite Hr. simpl. apply IH; try done.
    intros m Hm. apply Hn. by right.
Qed.

Lemma dijkstra_loop_optimal fuel : ∀ pq visited dist r,
  search_inv g wt start "" [] pq visited dist → end_ ∉ visited →
  dijkstra_loop fuel g end_ wt pq visited dist = Ret r →
  match r.1 with
  | Some p => ∃ d, r.2 = Fin d ∧ ∀ q, is_path g start end_ q → d ≤ path_weight g wt q
  | None => ∀ q, ¬ is_path g start end_ q
  end.
Proof.
  induction fuel as [|fuel IH]; intros pq visited dist r Hinv Hend Hrun; [done|].
  simpl in Hrun. destruct (heappop pq) as [[[[cw cn] path] pq1]|] eqn:Hpop.
  2: { injection Hrun as <-. simpl. intros q Hq.
       apply heappop_None in Hpop as ->.
       destruct (frontier_bound _ _ _ _ _ _ Hinv Hq Hend) as (d & x & p & Hin & _).
       by apply elem_of_nil in Hin. }
  pose proof (heappop_elem _ _ _ Hpop) as Hel.
  pose proof (heappop_min _ _ _ Hpop) as Hmin.
  destruct (decide (cn ∈ visited)) as [Hcn|Hcn].
  { apply IH in Hrun; [done| |done].
    destruct Hinv as [Hq Hc Hup Hqd Hst Hopt Hcl]. split; try done.
    - intros d v p Hin. apply Hq, Hel. by right.
    - intros d v p Hin. eapply Hup, Hel. by right.
    - intros v d Hv Hd. destruct (Hqd v d Hv Hd) as [p Hin].
      apply Hel in Hin as [[= -> -> ->]|Hin]; [done|]. by exists p. }
  assert (∀ q, is_path g start cn q → cw ≤ path_weight g wt q) as Hbest.
  { intros q Hq.
    destruct (frontier_bound _ _ _ _ _ _ Hinv Hq Hcn) as (d & x & p & Hin & Hle).
    specialize (Hmin _ Hin). simpl in Hmin. lia. }
  destruct (inv_paths _ _ _ _ _ _ _ _ Hinv cw cn path) as [Hp Hw];
    [apply Hel; by left|].
  assert (dist !! cn = Some (Fin cw)) as Hdcn.
  { destruct (inv_upper _ _ _ _ _ _ _ _ Hinv cw cn path) as (d' & Hd' & Hle);
      [apply Hel; by left|].
    destruct (inv_queued _ _ _ _ _ _ _ _ Hinv cn d' Hcn Hd') as [p' Hin].
    specialize (Hmin _ Hin). simpl in Hmin.
    rewrite Hd'. do 2 f_equal. lia. }
  destruct (decide (cn = end_)) as [->|Hne].
  { injection Hrun as <-. simpl. by exists cw. }
  destruct (neighbors g cn) as [nbrs| |] eqn:Hnb; simpl in Hrun; try done.
  apply neighbors_Ret in Hnb as [Hnode Hnb].
  destruct (relax_all_inv cn cw path ({[cn]} ∪ visited) nbrs pq1 dist)
    as ([pq2 dist2] & Hr & Hinv2); try done.
  { destruct Hinv as [Hq Hc Hup Hqd Hst Hopt Hcl]. split; try done.
    - intros d v p Hin. apply Hq, Hel. by right.
    - intros d v p Hin. eapply Hup, Hel. by right.
    - intros v d Hv Hd. destruct (Hqd v d) as [p Hin]; [set_solver|done|].
      apply Hel in Hin as [[= -> -> ->]|Hin]; [set_solver|]. by exists p.
    - intros Hs. apply Hst. set_solver.
    - intros u [->%elem_of_singleton|Hu]%elem_of_union; [by exists cw|by apply Hopt].
    - intros u v Hu Hev Htodo. destruct (decide (u = cn)) as [->|Hucn].
      + exfalso. apply Htodo; [done|]. by apply Hnb.
      + apply Hcl; [set_solver|done|]. intros _. apply not_elem_of_nil. }
  { set_solver. }
  { intros n Hn. by apply Hnb. }
  rewrite Hr in Hrun. simpl in Hrun. apply IH in Hrun; [done| |set_solver].
  by eapply search_inv_todo_nil.
Qed.

Lemma init_distances_lookup v x : init_distances g !! v = Some x → x = Inf.
Proof.
  unfold init_distances. intros H%elem_of_list_to_map_2.
  apply list_elem_of_fmap in H as (? & [= _ ->] & _). done.
Qed.

Lemma initial_search_inv :
  search_inv g wt start "" [] [(0, start, [start])] ∅
    (<[start := Fin 0]> (init_distances g)).
Proof.
  split.
  - apply initial_queue_sound.
  - apply init_distances_covers.
  - intros d v p [[= -> -> ->]|[]%elem_of_nil]%elem_of_cons.
    exists 0. by rewrite lookup_insert_eq.
  - intros v d _ Hd. destruct (decide (start = v)) as [->|Hne].
    + rewrite lookup_insert_eq in Hd. injection Hd as <-. eexists. left.
    + rewrite lookup_insert_ne in Hd by done. by apply init_distances_lookup in Hd.
  - intros _. by rewrite lookup_insert_eq.
  - intros u Hu. set_solver.
  - intros u v Hu. set_solver.
Qed.

(** When [dijkstra] returns a path no path is lighter, and when it returns
    [None] there is no path. *)
Lemma dijkstra_optimal r :
  dijkstra g start end_ wt = Ret r →
  match r.1 with
  | Some p => ∃ d, r.2 = Fin d ∧ ∀ q, is_path g start end_ q → d ≤ path_weight g wt q
  | None => ∀ q, ¬ is_path g start end_ q
  end.
Proof.
  unfold dijkstra. apply dijkstra_loop_optimal; [|set_solver].
  apply initial_search_inv.
Qed.

End dijkstra_optimal.

(** ** [dijkstra] to a location that cannot be reached *)

Lemma dijkstra_no_path (g : Graph) (m start end_ : string) :
  undirected g → is_Some (od_get start g) →
  (∀ q, ¬ is_path g start end_ q) →
  dijkstra g start end_ m = Ret (None, Inf).
Proof.
  intros Hund Hs Hno.
  destruct (dijkstra_total g m start end_ Hund Hs) as (r & Hr & Hcases).
  destruct Hcases as [->|(p & d & -> & Hp & Hw)]; [done|].
  by destruct (Hno p).
Qed.

Lemma no_path_to_absent (g : Graph) (start end_ : string) :
  undirected g → is_Some (od_get start g) → od_get end_ g = None →
  ∀ q, ¬ is_path g start end_ q.
Proof.
  intros Hund Hs Hend q Hq.
  pose proof (is_path_end_is_node g start end_ q Hund Hs Hq) as [e He].
  by rewrite Hend in He.
Qed.

(** ** The shortest-path claims *)



(** C3, as the specification states it, fails for a [start] that is not
    present: [dijkstra] raises networkx's error when [end_] differs from
    [start], and returns the found path [[start]] with weight 0 when
    [end_] is [start]. *)
Lemma dijkstra_absent_start :
  has_node sample_graph "Depot" = false
  ∧ dijkstra sample_graph "Depot" "City_E" "distance" = Raise (NetworkXError "Depot")
  ∧ dijkstra sample_graph "Depot" "Depot" "distance" = Ret (Some ["Depot"], Fin 0).
Proof. repeat split; vm_compute; reflexivity. Qed.

(** C3 (amended): for every network, metric and pair with [start] present
    such that [end_] is not present or is unreachable from [start],
    [dijkstra] returns [(None, inf)] and raises nothing; this value
    differs from every found-path result, a found zero-weight one
    included. *)
Theorem dijkstra_not_reachable (g : Graph) (m start end_ : string) :
  undirected g → has_node g start = true →
  (has_node g end_ = false ∨ ∀ q, ¬ is_path g start end_ q) →
  dijkstra g start end_ m = Ret (None, Inf)
  ∧ ∀ (p : list string) (w : num), @Ret (option (list string) * num) (None, Inf) ≠ Ret (Some p, w).
Proof.
  intros Hund Hs%has_node_spec Hno. split; [|done].
  apply dijkstra_no_path; [done|done|].
  destruct Hno as [Hend%has_node_false|Hno]; [|done].
  by apply no_path_to_absent.
Qed.

Lemma dijkstra_not_reachable_witness :
  dijkstra sample_graph "Warehouse" "Depot" "time" = Ret (None, Inf)
  ∧ ∀ (p : list string) (w : num), @Ret (option (list string) * num) (None, Inf) ≠ Ret (Some p, w).
Proof.
  apply (dijkstra_not_reachable sample_graph "time" "Warehouse" "Depot").
  - compute_done.
  - reflexivity.
  - left. reflexivity.
Defined.

(** C10: for every metric string that is not one of the attributes stored
    on the edges, [dijkstra] from a present [start] does not fail: every
    edge is read as weight 1, so that a returned path comes with its number
    of edges as weight and no path from [start] to [end_] has fewer edges;
    [(None, inf)] is returned only when there is no path. *)
Theorem dijkstra_unknown_metric_counts_hops (g : Graph) (m start end_ : string) :
  undirected g → standard_attrs g → m ∉ attr_names → has_node g start = true →
  (∀ u v, is_Some (edge_data g u v) → edge_weight g m u v = 1)
  ∧ ∃ r, dijkstra g start end_ m = Ret r
         ∧ match r.1 with
           | Some p =>
               is_path g start end_ p
               ∧ r.2 = Fin (Z.of_nat (length p) - 1)
               ∧ ∀ q, is_path g start end_ q → (length p ≤ length q)%nat
           | None => r.2 = Inf ∧ ∀ q, ¬ is_path g start end_ q
           end.
Proof.
  intros Hund Hstd Hm Hs%has_node_spec.
  assert (∀ u v, is_Some (edge_data g u v) → edge_weight g m u v = 1) as Hone.
  { intros u v. by apply standard_attrs_weight. }
  split; [done|].
  pose proof (standard_attrs_nonneg g m Hstd Hm) as Hnn.
  destruct (dijkstra_total g m start end_ Hund Hs) as (r & Hr & Hcases).
  pose proof (dijkstra_optimal g m start end_ Hund Hnn r Hr) as Hopt.
  exists r. split; [done|].
  destruct Hcases as [->|(p & d & -> & Hp & Hw)]; simpl in *; [done|].
  destruct Hopt as (d' & [= <-] & Hmin).
  rewrite (path_weight_hops g m p Hone) in Hw by apply Hp. subst d.
  split; [done|]. split; [done|].
  intros q Hq. specialize (Hmin q Hq).
  rewrite (path_weight_hops g m q Hone) in Hmin by apply Hq. lia.
Qed.

Lemma dijkstra_unknown_metric_counts_hops_witness :
  (∀ u v, is_Some (edge_data sample_graph u v) → edge_weight sample_graph "hops" u v = 1)
  ∧ ∃ r, dijkstra sample_graph "Warehouse" "City_E" "hops" = Ret r
         ∧ match r.1 with
           | Some p =>
               is_path sample_graph "Warehouse" "City_E" p
               ∧ r.2 = Fin (Z.of_nat (length p) - 1)
               ∧ ∀ q, is_path sample_graph "Warehouse" "City_E" q
                      → (length p ≤ length q)%nat
           | None => r.2 = Inf ∧ ∀ q, ¬ is_path sample_graph "Warehouse" "City_E" q
           end.
Proof.
  apply (dijkstra_unknown_metric_counts_hops sample_graph "hops" "Warehouse" "City_E").
  - compute_done.
  - compute_done.
  - compute_done.
  - reflexivity.
Defined.

Example dijkstra_sample_hops :
  dijkstra sample_graph "Warehouse" "City_E" "hops"
  = Ret (Some ["Warehouse"; "Hub_1"; "City_D"; "City_E"], Fin 3).
Proof. vm_compute. reflexivity. Qed.

(** ** The multi-stop planner *)

Section planner_facts.
Context (set_iter : gset string → list string).
Hypothesis set_iter_elem : ∀ X x, x ∈ set_iter X → x ∈ X.
Context (g : Graph) (m : string).
Hypothesis Hund : undirected g.

(** With no stop reachable the scan leaves its running best as it is. *)
Lemma scan_stops_stranded current stops : ∀ b,
  is_Some (od_get current g) →
  (∀ s, s ∈ stops → ∀ q, ¬ is_path g current s q) →
  scan_stops g m current b stops = Ret b.
Proof.
  induction stops as [|s stops IH]; intros b Hc Hno; [done|].
  simpl. rewrite dijkstra_no_path; [|done|done|apply Hno; left].
  simpl. apply IH; [done|]. intros s' Hs'. apply Hno. by right.
Qed.

(** The scan always returns, and a stop it selects is one of the scanned
    stops (or the one selected before), with a path to it. *)
Lemma scan_stops_total (allowed : string → Prop) current stops : ∀ b,
  is_Some (od_get current g) →
  (∀ s, s ∈ stops → allowed s) →
  match b.1.1 with
  | None => True
  | Some n => allowed n ∧ ∃ path, b.2 = Some path ∧ is_path g current n path
  end →
  ∃ b', scan_stops g m current b stops = Ret b'
        ∧ match b'.1.1 with
          | None => True
          | Some n => allowed n ∧ ∃ path, b'.2 = Some path ∧ is_path g current n path
          end.
Proof.
  induction stops as [|s stops IH]; intros b Hc Hall Hb.
  { by exists b. }
  simpl.
  destruct (dijkstra_total g m current s Hund Hc) as (r & -> & Hcases). simpl.
  apply IH; [done|intros s' Hs'; apply Hall; by right|].
  destruct Hcases as [->|(p & d & -> & Hp & Hw)]; [exact Hb|].
  change (Some p, Fin d).1 with (Some p). change (Some p, Fin d).2 with (Fin d).
  destruct (truthy (Some p) && num_ltb (Fin d) b.1.2); [|exact Hb].
  split; [apply Hall; left|]. by exists p.
Qed.

(** When no remaining stop can be reached from the current position the
    loop ends at once, with the route and the weight it has. *)
Lemma multi_stop_loop_stranded fuel current unvisited route total :
  is_Some (od_get current g) →
  (∀ s, s ∈ unvisited → ∀ q, ¬ is_path g current s q) →
  (size unvisited ≤ fuel)%nat →
  multi_stop_loop set_iter fuel g m current unvisited route total
  = Ret (route, total).
Proof.
  intros Hc Hno Hfuel. destruct fuel as [|fuel]; simpl.
  - destruct (decide (unvisited = ∅)) as [|Hne]; [done|].
    exfalso. apply Hne. apply leibniz_equiv, size_empty_inv. lia.
  - destruct (decide (unvisited = ∅)); [done|].
    rewrite scan_stops_stranded; [done|done|].
    intros s Hs. apply Hno. by apply set_iter_elem.
Qed.

(** The loop always returns: every round removes a stop. *)
Lemma multi_stop_loop_total fuel : ∀ current unvisited route total,
  is_Some (od_get current g) → (size unvisited ≤ fuel)%nat →
  ∃ r, multi_stop_loop set_iter fuel g m current unvisited route total = Ret r.
Proof.
  induction fuel as [|fuel IH]; intros current unvisited route total Hc Hfuel; simpl.
  - destruct (decide (unvisited = ∅)) as [|Hne]; [by eexists|].
    exfalso. apply Hne. apply leibniz_equiv, size_empty_inv. lia.
  - destruct (decide (unvisited = ∅)); [by eexists|].
    destruct (scan_stops_total (λ s, s ∈ unvisited) current (set_iter unvisited)
                (None, Inf, None) Hc) as (b & -> & Hb); [by apply set_iter_elem|done|].
    simpl. destruct b.1.1 as [nearest|]; [|by eexists].
    destruct Hb as (Hin & path & -> & Hp).
    rewrite decide_True by done.
    apply IH; [by eapply is_path_end_is_node|].
    rewrite size_difference by set_solver. rewrite size_singleton. lia.
Qed.

End planner_facts.

(** C9: for every network, metric and iteration order of the stop set:
    whenever, at the head of the planner's loop, the current position is a
    location of the network and no remaining unvisited stop is reachable
    from it, the planner returns at that point the route built so far
    together with the weight accumulated so far, as a normal result; for an
    empty list of stops it returns [([origin], 0)]; and from an origin that
    is present it always returns a route and a weight, raising nothing. *)
Theorem planner_returns_partial_route
    (set_iter : gset string → list string) (g : Graph) (m : string) :
  (∀ X x, x ∈ set_iter X → x ∈ X) → undirected g →
  (∀ current unvisited route total fuel,
     has_node g current = true →
     (∀ s, s ∈ unvisited → ∀ q, ¬ is_path g current s q) →
     (size unvisited ≤ fuel)%nat →
     multi_stop_loop set_iter fuel g m current unvisited route total
     = Ret (route, total))
  ∧ (∀ origin, find_multi_stop_route set_iter g origin [] m = Ret ([origin], Fin 0))
  ∧ (∀ origin stops, has_node g origin = true →
       ∃ route total,
         find_multi_stop_route set_iter g origin stops m = Ret (route, total)).
Proof.
  intros Hiter Hund. split; [|split].
  - intros current unvisited route total fuel Hc%has_node_spec Hno Hfuel.
    by apply multi_stop_loop_stranded.
  - done.
  - intros origin stops Hc%has_node_spec. unfold find_multi_stop_route.
    destruct stops as [|s stops]; [by eexists _, _|].
    destruct (multi_stop_loop_total set_iter Hiter g m Hund
                (size (list_to_set (C := gset string) (s :: stops))) origin
                (list_to_set (s :: stops)) [origin] (Fin 0) Hc)
      as ([route total] & Hr); [done|].
    by exists route, total.
Qed.

Lemma planner_returns_partial_route_witness :
  (∀ current unvisited route total fuel,
     has_node sample_graph current = true →
     (∀ s, s ∈ unvisited → ∀ q, ¬ is_path sample_graph current s q) →
     (size unvisited ≤ fuel)%nat →
     multi_stop_loop elements fuel sample_graph "distance" current unvisited route total
     = Ret (route, total))
  ∧ (∀ origin,
       find_multi_stop_route elements sample_graph origin [] "distance"
       = Ret ([origin], Fin 0))
  ∧ (∀ origin stops, has_node sample_graph origin = true →
       ∃ route total,
         find_multi_stop_route elements sample_graph origin stops "distance"
         = Ret (route, total)).
Proof.
  apply (planner_returns_partial_route elements sample_graph "distance").
  - intros X x. apply elem_of_elements.
  - compute_done.
Defined.

(** A stop outside the network strands the planner after the reachable
    stop: the partial route and its weight come back. *)
Example planner_partial_on_sample :
  find_multi_stop_route elements sample_graph "Warehouse" ["Depot"; "City_B"] "distance"
  = Ret (["Warehouse"; "Hub_1"; "City_B"], Fin 35).
Proof. vm_compute. reflexivity. Qed.

(** ** [add_route] on a pair that has a route *)

Lemma ensure_node_edge_data n g x y : edge_data (ensure_node n g) x y = edge_data g x y.
Proof.
  unfold ensure_node. destruct (od_get n g) eqn:E; [done|]. unfold edge_data.
  destruct (decide (n = x)) as [->|Hne].
  - by rewrite od_get_set_eq, E.
  - by rewrite od_get_set_ne.
Qed.

Lemma set_adj_edge_data u v d g e x y :
  od_get u g = Some e →
  edge_data (set_adj u v d g) x y
  = if decide (x = u ∧ y = v) then Some d else edge_data g x y.
Proof.
  intros He. unfold edge_data. destruct (decide (x = u)) as [->|Hxu].
  - rewrite (set_adj_get_eq _ _ _ _ _ He). simpl. rewrite He. simpl.
    destruct (decide (y = v)) as [->|Hyv].
    + rewrite decide_True by done. apply od_get_set_eq.
    + rewrite decide_False by (intros [_ ?]; done). by apply od_get_set_ne.
  - rewrite set_adj_get_ne by done. by rewrite decide_False by (intros [? _]; done).
Qed.

Lemma set_adj_is_node u v d g m :
  is_Some (od_get m g) → is_Some (od_get m (set_adj u v d g)).
Proof.
  intros Hm. unfold set_adj. destruct (od_get u g) as [e|] eqn:E; [|done].
  destruct (decide (u = m)) as [->|Hne].
  - by rewrite od_get_set_eq.
  - by rewrite od_get_set_ne.
Qed.

(** The edge dictionaries after [add_edge]: the edge [a]-[b] carries the
    new attributes on top of its former ones, in both directions, and no
    other edge changes. *)
Lemma add_edge_edge_data a b w g x y :
  edge_data (add_edge a b w g) x y
  = if decide ((x = a ∧ y = b) ∨ (x = b ∧ y = a))
    then Some (w ∪ default ∅ (edge_data g a b))
    else edge_data g x y.
Proof.
  unfold add_edge. rewrite ensure_node_edge_data, ensure_node_edge_data.
  set (d := w ∪ default ∅ (edge_data g a b)).
  set (g1 := ensure_node b (ensure_node a g)).
  assert (is_Some (od_get a g1)) as [ea Ha].
  { unfold g1. destruct (decide (b = a)) as [->|Hne].
    - apply ensure_node_get.
    - rewrite ensure_node_get_ne by done. apply ensure_node_get. }
  assert (is_Some (od_get b g1)) as Hb by apply ensure_node_get.
  destruct (set_adj_is_node a b d g1 b Hb) as [eb Hb'].
  rewrite (set_adj_edge_data _ _ _ _ _ _ _ Hb').
  rewrite (set_adj_edge_data _ _ _ _ _ _ _ Ha).
  unfold g1. rewrite !ensure_node_edge_data.
  destruct (decide (x = b ∧ y = a)), (decide (x = a ∧ y = b));
    destruct (decide ((x = a ∧ y = b) ∨ (x = b ∧ y = a))); naive_solver.
Qed.

Lemma filter_keys_length (seen : list string) (l l' : list (string * gmap string Z)) :
  od_keys l = od_keys l' →
  length (filter (λ x : string * gmap string Z, x.1 ∉ seen) l)
  = length (filter (λ x : string * gmap string Z, x.1 ∉ seen) l').
Proof.
  revert l'. unfold od_keys.
  induction l as [|[k d] l IH]; intros [|[k' d'] l']; try done.
  simpl. intros [= -> H]. rewrite !filter_cons. simpl.
  destruct (decide (k' ∉ seen)); simpl; auto.
Qed.

(** The number of edges depends on the keys only. *)
Lemma edges_from_length (g : Graph) : ∀ (g' : Graph) seen,
  graph_keys g = graph_keys g' →
  length (edges_from seen g) = length (edges_from seen g').
Proof.
  unfold graph_keys.
  induction g as [|[n e] g IH]; intros [|[n' e'] g'] seen; try done.
  simpl. intros [= -> Hk H]. rewrite !length_app, !length_fmap.
  rewrite (filter_keys_length _ _ _ Hk). f_equal. by apply IH.
Qed.

Lemma od_set_graph_keys u (e e' : NodeEntry) (g : Graph) :
  od_get u g = Some e → od_keys (n_adj e') = od_keys (n_adj e) →
  graph_keys (od_set u e' g) = graph_keys g.
Proof.
  unfold graph_keys. intros He Hk.
  induction g as [|[k e0] g IH]; [done|]. simpl in *.
  destruct (decide (u = k)) as [->|Hne]; simpl.
  - injection He as ->. by rewrite Hk.
  - f_equal. by apply IH.
Qed.

Lemma set_adj_graph_keys u v d g :
  is_Some (edge_data g u v) → graph_keys (set_adj u v d g) = graph_keys g.
Proof.
  intros [d' (e & He & Hv)%edge_data_Some]. unfold set_adj. rewrite He.
  apply (od_set_graph_keys _ e); [done|]. simpl.
  apply od_keys_set_present. by rewrite Hv.
Qed.

Lemma graph_keys_nodes g g' : graph_keys g = graph_keys g' → nodes g = nodes g'.
Proof.
  unfold graph_keys, nodes, od_keys. intros H.
  apply (f_equal (fmap fst)) in H. rewrite <- !list_fmap_compose in H. exact H.
Qed.

(** [add_edge] on an edge that exists in both directions adds no key. *)
Lemma add_edge_graph_keys a b w g :
  is_Some (edge_data g a b) → is_Some (edge_data g b a) →
  graph_keys (add_edge a b w g) = graph_keys g.
Proof.
  intros Hab Hba. unfold add_edge.
  assert (is_Some (od_get a g)) as Ha.
  { destruct Hab as [? (e & -> & _)%edge_data_Some]. done. }
  assert (is_Some (od_get b g)) as Hb.
  { destruct Hba as [? (e & -> & _)%edge_data_Some]. done. }
  rewrite (ensure_node_present a g Ha), (ensure_node_present b g Hb).
  set (d := w ∪ default ∅ (edge_data g a b)).
  rewrite set_adj_graph_keys; [by apply set_adj_graph_keys|].
  destruct Ha as [ea Ha]. rewrite (set_adj_edge_data _ _ _ _ _ _ _ Ha).
  by destruct (decide (b = a ∧ a = b)).
Qed.

(** C8: for every network and every pair of locations [a], [b] with a route
    between them, [add_route] on that pair, in either order, adds no edge
    and no location: the edge count is what it was, every other route is
    unchanged, and looking up the route [a]-[b], from either end, gives the
    new distance, time and cost. *)
Theorem add_route_again_overwrites (s : Optimizer) (a b x y : string)
    (distance time cost : Z) :
  undirected (graph s) → has_edge (graph s) a b = true →
  (x = a ∧ y = b) ∨ (x = b ∧ y = a) →
  number_of_edges (graph (add_route x y distance time cost s))
  = number_of_edges (graph s)
  ∧ nodes (graph (add_route x y distance time cost s)) = nodes (graph s)
  ∧ (∀ u v, ¬ ((u = a ∧ v = b) ∨ (u = b ∧ v = a)) →
       edge_data (graph (add_route x y distance time cost s)) u v
       = edge_data (graph s) u v)
  ∧ (∀ u v, (u = a ∧ v = b) ∨ (u = b ∧ v = a) →
       ∃ w, edge_data (graph (add_route x y distance time cost s)) u v = Some w
            ∧ w !! "distance" = Some distance
            ∧ w !! "time" = Some time
            ∧ w !! "cost" = Some cost).
Proof.
  intros Hund Hab%has_edge_spec Hxy. unfold add_route; simpl.
  assert (is_Some (edge_data (graph s) b a)) as Hba.
  { destruct Hab as [d Hd]. exists d. by apply undirected_sym. }
  assert (is_Some (edge_data (graph s) x y) ∧ is_Some (edge_data (graph s) y x))
    as [Hxy1 Hyx1] by (destruct Hxy as [[-> ->]|[-> ->]]; done).
  pose proof (add_edge_graph_keys x y (weights distance time cost) (graph s) Hxy1 Hyx1)
    as Hkeys.
  destruct (weights_lookup distance time cost) as (Wd & Wt & Wc).
  split; [by apply edges_from_length|]. split; [by apply graph_keys_nodes|].
  split.
  - intros u v Hne. rewrite add_edge_edge_data. rewrite decide_False; [done|].
    destruct Hxy as [[-> ->]|[-> ->]]; naive_solver.
  - intros u v Huv. rewrite add_edge_edge_data. rewrite decide_True.
    + eexists. split; [done|]. repeat split; by apply lookup_union_Some_l.
    + destruct Hxy as [[-> ->]|[-> ->]]; naive_solver.
Qed.

Lemma add_route_again_overwrites_witness :
  number_of_edges (graph (add_route "Hub_1" "Warehouse" 1 2 3 sample_optimizer))
  = number_of_edges (graph sample_optimizer)
  ∧ nodes (graph (add_route "Hub_1" "Warehouse" 1 2 3 sample_optimizer))
    = nodes (graph sample_optimizer)
  ∧ (∀ u v, ¬ ((u = "Warehouse" ∧ v = "Hub_1") ∨ (u = "Hub_1" ∧ v = "Warehouse")) →
       edge_data (graph (add_route "Hub_1" "Warehouse" 1 2 3 sample_optimizer)) u v
       = edge_data (graph sample_optimizer) u v)
  ∧ (∀ u v, (u = "Warehouse" ∧ v = "Hub_1") ∨ (u = "Hub_1" ∧ v = "Warehouse") →
       ∃ w, edge_data (graph (add_route "Hub_1" "Warehouse" 1 2 3 sample_optimizer)) u v
            = Some w
            ∧ w !! "distance" = Some 1
            ∧ w !! "time" = Some 2
            ∧ w !! "cost" = Some 3).
Proof.
  apply (add_route_again_overwrites sample_optimizer "Warehouse" "Hub_1"
           "Hub_1" "Warehouse" 1 2 3).
  - compute_done.
  - reflexivity.
  - right. split; reflexivity.
Defined.

(** The dictionary [edge_weights], which nothing reads, is keyed by the
    ordered pair: the reversed call leaves the first entry and adds one. *)
Example edge_weights_is_ordered :
  size (edge_weights (add_route "Hub_1" "Warehouse" 1 2 3 sample_optimizer)) = 13%nat
  ∧ size (edge_weights sample_optimizer) = 12%nat.
Proof. split; vm_compute; reflexivity. Qed.

(** ** Every network the application builds is well formed *)

Section odict_nodup.
Context {V : Type}.
Implicit Types (d : list (string * V)) (k : string) (v : V).

Lemma od_elem_of_get k v d : NoDup (od_keys d) → (k, v) ∈ d → od_get k d = Some v.
Proof.
  unfold od_keys. induction d as [|[k' v'] d IH]; simpl.
  - by intros _ ?%elem_of_nil.
  - intros [Hk Hd]%NoDup_cons [[= -> ->]|Hin]%elem_of_cons.
    + by rewrite decide_True.
    + rewrite decide_False; [by apply IH|].
      intros ->. apply Hk. apply list_elem_of_fmap. by exists (k', v).
Qed.

Lemma NoDup_od_set k v d : NoDup (od_keys d) → NoDup (od_keys (od_set k v d)).
Proof.
  intros Hd. destruct (od_get k d) as [v'|] eqn:E.
  - rewrite od_keys_set_present; [done|by rewrite E].
  - rewrite od_keys_set_absent by done. apply NoDup_app. split; [done|].
    split; [|apply NoDup_singleton].
    intros x Hx ->%list_elem_of_singleton.
    apply od_get_is_Some in Hx as [? Hx]. by rewrite E in Hx.
Qed.

Lemma od_keys_del_sublist k d : od_keys (od_del k d) `sublist_of` od_keys d.
Proof.
  unfold od_keys. induction d as [|[k' v'] d IH]; simpl; [done|].
  destruct (decide (k = k')); simpl.
  - by apply sublist_cons.
  - by apply sublist_skip.
Qed.

Lemma NoDup_od_del k d : NoDup (od_keys d) → NoDup (od_keys (od_del k d)).
Proof. intros Hd. eapply sublist_NoDup; [done|apply od_keys_del_sublist]. Qed.

Lemma od_get_del_ne k k' d : k ≠ k' → od_get k' (od_del k d) = od_get k' d.
Proof.
  intros Hne. induction d as [|[k0 v0] d IH]; simpl; [done|].
  destruct (decide (k = k0)) as [->|Hne0]; simpl.
  - by rewrite decide_False.
  - by rewrite IH.
Qed.

Lemma od_get_del_eq k d : NoDup (od_keys d) → od_get k (od_del k d) = None.
Proof.
  unfold od_keys. induction d as [|[k0 v0] d IH]; simpl; [done|].
  intros [Hk Hd]%NoDup_cons. destruct (decide (k = k0)) as [->|Hne]; simpl.
  - apply eq_None_not_Some. intros H. apply Hk. by apply od_get_is_Some.
  - rewrite decide_False by done. by apply IH.
Qed.
End odict_nodup.

(** Replacing the entry of a node without touching its adjacency. *)
Lemma od_set_edge_data n (e' : NodeEntry) (g : Graph) x y :
  n_adj e' = match od_get n g with Some e => n_adj e | None => [] end →
  edge_data (od_set n e' g) x y = edge_data g x y.
Proof.
  intros H. unfold edge_data. destruct (decide (n = x)) as [->|Hne].
  - rewrite od_get_set_eq. simpl. rewrite H. by destruct (od_get x g).
  - by rewrite od_get_set_ne.
Qed.

Lemma graph_wf_od_set n (e' : NodeEntry) (g : Graph) :
  graph_wf g →
  n_adj e' = match od_get n g with Some e => n_adj e | None => [] end →
  graph_wf (od_set n e' g).
Proof.
  intros [Hn Ha Hs Hd] H. split.
  - by apply NoDup_od_set.
  - intros u e. destruct (decide (n = u)) as [->|Hne].
    + rewrite od_get_set_eq. intros [= <-]. rewrite H.
      destruct (od_get u g) as [e0|] eqn:E; [by eapply Ha|apply NoDup_nil_2].
    + rewrite od_get_set_ne by done. apply Ha.
  - intros u v d. rewrite !od_set_edge_data by done. apply Hs.
  - intros u v d. rewrite od_set_edge_data by done. apply Hd.
Qed.

Lemma graph_wf_empty : graph_wf empty_graph.
Proof. split; [apply NoDup_nil_2|done..]. Qed.

Lemma graph_wf_add_node n attr g : graph_wf g → graph_wf (add_node n attr g).
Proof.
  intros Hg. unfold add_node.
  destruct (od_get n g) as [e|] eqn:E; apply graph_wf_od_set; try done;
    by rewrite E.
Qed.

Lemma graph_wf_ensure_node n g : graph_wf g → graph_wf (ensure_node n g).
Proof.
  intros Hg. unfold ensure_node. destruct (od_get n g) as [e|] eqn:E; [done|].
  apply graph_wf_od_set; [done|]. by rewrite E.
Qed.

Lemma set_adj_keys_wf u v d g :
  NoDup (od_keys g) ∧ (∀ m e, od_get m g = Some e → NoDup (od_keys (n_adj e))) →
  NoDup (od_keys (set_adj u v d g))
  ∧ (∀ m e, od_get m (set_adj u v d g) = Some e → NoDup (od_keys (n_adj e))).
Proof.
  intros [Hn Ha]. unfold set_adj. destruct (od_get u g) as [eu|] eqn:E; [|done].
  split; [by apply NoDup_od_set|].
  intros m e. destruct (decide (u = m)) as [->|Hne].
  - rewrite od_get_set_eq. intros [= <-]. simpl. apply NoDup_od_set. by eapply Ha.
  - rewrite od_get_set_ne by done. apply Ha.
Qed.

Lemma graph_wf_add_edge a b w g :
  dom w ⊆ attr_names → graph_wf g → graph_wf (add_edge a b w g).
Proof.
  intros Hw Hg.
  assert (NoDup (od_keys (add_edge a b w g))
          ∧ (∀ m e, od_get m (add_edge a b w g) = Some e → NoDup (od_keys (n_adj e))))
    as [Hn Ha].
  { unfold add_edge. do 2 apply set_adj_keys_wf.
    destruct (graph_wf_ensure_node b _ (graph_wf_ensure_node a g Hg)). done. }
  destruct Hg as [_ _ Hs Hd]. split; [done|done| |].
  - intros u v d. rewrite !add_edge_edge_data.
    destruct (decide ((u = a ∧ v = b) ∨ (u = b ∧ v = a))) as [Huv|Huv].
    + rewrite decide_True by naive_solver. done.
    + rewrite decide_False by naive_solver. apply Hs.
  - intros u v d. rewrite add_edge_edge_data.
    destruct (decide ((u = a ∧ v = b) ∨ (u = b ∧ v = a))) as [Huv|Huv]; [|apply Hd].
    intros [= <-]. rewrite dom_union.
    destruct (edge_data g a b) as [old|] eqn:E; simpl.
    + specialize (Hd _ _ _ E). set_solver.
    + rewrite dom_empty. set_solver.
Qed.

Lemma weights_dom distance time cost : dom (weights distance time cost) ⊆ attr_names.
Proof. unfold weights, attr_names. rewrite !dom_insert, dom_empty. set_solver. Qed.

(** One [del adj[u][n]] on an edge that is there. *)
Lemma del_adj_spec u n g :
  NoDup (od_keys g) →
  (∀ m e, od_get m g = Some e → NoDup (od_keys (n_adj e))) →
  is_Some (edge_data g u n) →
  ∃ g', del_adj u n g = Ret g'
        ∧ NoDup (od_keys g')
        ∧ (∀ m e, od_get m g' = Some e → NoDup (od_keys (n_adj e)))
        ∧ (∀ m, is_Some (od_get m g') ↔ is_Some (od_get m g))
        ∧ (∀ x y, edge_data g' x y
                  = if decide (x = u ∧ y = n) then None else edge_data g x y).
Proof.
  intros Hn Ha [d (e & He & Hd)%edge_data_Some].
  unfold del_adj. rewrite He, Hd. eexists. split; [done|].
  split; [by apply NoDup_od_set|]. split; [|split].
  - intros m e'. destruct (decide (u = m)) as [->|Hne].
    + rewrite od_get_set_eq. intros [= <-]. simpl. apply NoDup_od_del. by eapply Ha.
    + rewrite od_get_set_ne by done. apply Ha.
  - intros m. destruct (decide (u = m)) as [->|Hne].
    + rewrite od_get_set_eq, He. split; done.
    + by rewrite od_get_set_ne.
  - intros x y. unfold edge_data. destruct (decide (u = x)) as [->|Hne].
    + rewrite od_get_set_eq, He. simpl. destruct (decide (y = n)) as [->|Hyn].
      * rewrite decide_True by done. apply od_get_del_eq. by eapply Ha.
      * rewrite decide_False by naive_solver. by apply od_get_del_ne.
    + rewrite od_get_set_ne by done. by rewrite decide_False by naive_solver.
Qed.

(** The whole loop of [remove_node]. *)
Lemma del_adj_all_spec n nbrs : ∀ g,
  NoDup (od_keys g) →
  (∀ m e, od_get m g = Some e → NoDup (od_keys (n_adj e))) →
  NoDup nbrs → (∀ u, u ∈ nbrs → is_Some (edge_data g u n)) →
  ∃ g', del_adj_all nbrs n g = Ret g'
        ∧ NoDup (od_keys g')
        ∧ (∀ m e, od_get m g' = Some e → NoDup (od_keys (n_adj e)))
        ∧ (∀ m, is_Some (od_get m g') ↔ is_Some (od_get m g))
        ∧ (∀ x y, edge_data g' x y
                  = if decide (y = n ∧ x ∈ nbrs) then None else edge_data g x y).
Proof.
  induction nbrs as [|u nbrs IH]; intros g Hn Ha Hnd Hedges.
  - exists g. split; [done|]. split; [done|]. split; [done|]. split; [done|].
    intros x y. rewrite decide_False; [done|]. intros [_ ?%elem_of_nil]. done.
  - apply NoDup_cons in Hnd as [Hu Hnd]. simpl.
    destruct (del_adj_spec u n g Hn Ha) as (g1 & -> & Hn1 & Ha1 & Hm1 & He1);
      [apply Hedges; left|].
    simpl.
    destruct (IH g1 Hn1 Ha1 Hnd) as (g' & -> & Hn' & Ha' & Hm' & He').
    { intros u' Hu'. rewrite He1. rewrite decide_False; [apply Hedges; by right|].
      intros [-> _]. done. }
    exists g'. split; [done|]. split; [done|]. split; [done|]. split.
    + intros m. by rewrite Hm', Hm1.
    + intros x y. rewrite He', He1.
      destruct (decide (y = n ∧ x ∈ nbrs)) as [[-> Hx]|H1].
      * rewrite decide_True; [done|]. split; [done|by right].
      * destruct (decide (x = u ∧ y = n)) as [[-> ->]|H2].
        -- rewrite decide_True; [done|]. split; [done|left].
        -- rewrite decide_False; [done|].
           intros [-> [->|Hx]%elem_of_cons]; naive_solver.
Qed.

Lemma graph_wf_remove_node n g g' :
  graph_wf g → remove_node n g = Ret g' → graph_wf g'.
Proof.
  intros Hg. pose proof Hg as [Hn Ha Hs Hd]. unfold remove_node.
  destruct (od_get n g) as [e|] eqn:E; [|done].
  destruct (del_adj_all_spec n (od_keys (n_adj e)) g Hn Ha) as
    (g1 & -> & Hn1 & Ha1 & Hm1 & He1).
  { by eapply Ha. }
  { intros u Hu. apply od_get_is_Some in Hu as [d Hu].
    exists d. apply Hs. apply edge_data_Some. by exists e. }
  simpl. intros [= <-].
  assert (∀ x y, edge_data (od_del n g1) x y
                 = if decide (x = n ∨ y = n) then None else edge_data g x y) as He.
  { intros x y. unfold edge_data at 1. destruct (decide (x = n)) as [->|Hx].
    - rewrite od_get_del_eq by done. by rewrite decide_True by (by left).
    - rewrite od_get_del_ne by done. fold (edge_data g1 x y). rewrite He1.
      destruct (decide (y = n)) as [->|Hy].
      + rewrite (decide_True (P := x = n ∨ n = n)) by (by right).
        destruct (decide (n = n ∧ x ∈ od_keys (n_adj e))) as [|Hnot]; [done|].
        destruct (edge_data g x n) as [d|] eqn:Exn; [|done].
        exfalso. apply Hnot. split; [done|].
        apply Hs in Exn. apply edge_data_Some in Exn as (e0 & He0 & Hx0).
        rewrite E in He0. injection He0 as <-.
        apply od_get_is_Some. by rewrite Hx0.
      + rewrite decide_False by naive_solver. by rewrite decide_False by naive_solver. }
  split.
  - by apply NoDup_od_del.
  - intros u e'. destruct (decide (n = u)) as [->|Hne].
    + by rewrite od_get_del_eq.
    + rewrite od_get_del_ne by done. apply Ha1.
  - intros u v d. rewrite !He.
    destruct (decide (u = n ∨ v = n)); [done|].
    rewrite decide_False by naive_solver. apply Hs.
  - intros u v d. rewrite He. destruct (decide (u = n ∨ v = n)); [done|]. apply Hd.
Qed.

Lemma built_graph_wf s : built s → graph_wf (graph s).
Proof.
  induction 1 as [|s name p _ IH|s a b distance time cost _ IH|s loc s' dlg _ IH Hrm].
  - apply graph_wf_empty.
  - by apply graph_wf_add_node.
  - apply graph_wf_add_edge; [apply weights_dom|done].
  - unfold remove_location in Hrm.
    destruct (decide (loc = "")); [by injection Hrm as <- _|].
    destruct (remove_node loc (graph s)) as [g'| |] eqn:E; simpl in Hrm; try done.
    injection Hrm as <- _. simpl. by eapply graph_wf_remove_node.
Qed.

Lemma graph_wf_undirected g : graph_wf g → undirected g.
Proof.
  intros [Hn Ha Hs _]. unfold undirected.
  apply Forall_forall. intros [u e] Hu. apply Forall_forall. intros [v d] Hv. simpl.
  apply od_elem_of_get in Hu; [|done].
  apply Hs. apply edge_data_Some. exists e. split; [done|].
  apply od_elem_of_get; [by eapply Ha|done].
Qed.

Lemma graph_wf_standard_attrs g : graph_wf g → standard_attrs g.
Proof.
  intros [Hn Ha _ Hd]. unfold standard_attrs.
  apply Forall_forall. intros [u e] Hu. apply Forall_forall. intros [v d] Hv. simpl.
  apply od_elem_of_get in Hu; [|done].
  apply (Hd u v). apply edge_data_Some. exists e. split; [done|].
  apply od_elem_of_get; [by eapply Ha|done].
Qed.

(** Every network the application can hold is undirected and carries only
    the three attributes: the hypotheses of the theorems above hold of it. *)
Lemma built_undirected s : built s → undirected (graph s).
Proof. intros H. by apply graph_wf_undirected, built_graph_wf. Qed.

Lemma built_standard_attrs s : built s → standard_attrs (graph s).
Proof. intros H. by apply graph_wf_standard_attrs, built_graph_wf. Qed.

Lemma sample_optimizer_built : built sample_optimizer.
Proof.
  unfold sample_optimizer, initialize_sample_data. simpl.
  repeat (first [apply built_add_route | apply built_add_location]).
  apply built_empty.
Qed.

(** Removing a location of a network that was built never raises. *)
Lemma remove_node_built s n :
  built s → has_node (graph s) n = true → ∃ g', remove_node n (graph s) = Ret g'.
Proof.
  intros Hb%built_graph_wf [e E]%has_node_spec. pose proof Hb as [Hn Ha Hs Hd].
  unfold remove_node. rewrite E.
  destruct (del_adj_all_spec n (od_keys (n_adj e)) (graph s) Hn Ha) as (g1 & -> & _).
  { by eapply Ha. }
  { intros u Hu. apply od_get_is_Some in Hu as [d Hu].
    exists d. apply Hs. apply edge_data_Some. by exists e. }
  by eexists.
Qed.

(** * Further properties *)

(** ** Joining and reversing paths *)

Lemma has_edge_sym g u v :
  undirected g → has_edge g u v = true → has_edge g v u = true.
Proof.
  intros Hg [d Hd]%has_edge_spec. apply has_edge_spec. exists d.
  by apply undirected_sym.
Qed.

Lemma edge_weight_sym g wt u v :
  undirected g → has_edge g u v = true → edge_weight g wt v u = edge_weight g wt u v.
Proof.
  intros Hg [d Hd]%has_edge_spec. unfold edge_weight.
  by rewrite Hd, (undirected_sym g u v d Hg Hd).
Qed.

Lemma is_path_nonempty g s e p : is_path g s e p → p ≠ [].
Proof. by intros (_ & Hh & _) ->. Qed.

Lemma is_path_cons_inv g s e y p :
  is_path g s e (s :: y :: p) → has_edge g s y = true ∧ is_path g y e (y :: p).
Proof.
  intros (Hv & _ & Hl).
  change (has_edge g s y && valid_path g (y :: p) = true) in Hv.
  apply andb_true_iff in Hv as [Hsy Hv]. done.
Qed.

Lemma is_path_head g s e p : is_path g s e p → ∃ p', p = s :: p'.
Proof.
  intros (_ & Hh & _). destruct p as [|x p]; [done|].
  injection Hh as ->. by exists p.
Qed.


(** In an undirected network a path can be walked backwards, at the same
    weight. *)
Lemma is_path_rev g wt a b p :
  undirected g → is_path g a b p →
  is_path g b a (rev p) ∧ path_weight g wt (rev p) = path_weight g wt p.
Proof.
  intros Hg Hp. destruct (is_path_head _ _ _ _ Hp) as [p' ->].
  revert a Hp. induction p' as [|y p' IH]; intros a Hp.
  - destruct Hp as (_ & _ & [= <-]). done.
  - apply is_path_cons_inv in Hp as [Hay Hp].
    destruct (IH y Hp) as [H1 H2].
    change (rev (a :: y :: p')) with (rev (y :: p') ++ [a]).
    split.
    + eapply is_path_snoc; [done|]. by apply has_edge_sym.
    + rewrite (path_weight_snoc g wt _ y a) by apply H1.
      rewrite H2, (edge_weight_sym g wt a y) by done.
      change (path_weight g wt (a :: y :: p'))
        with (edge_weight g wt a y + path_weight g wt (y :: p')). lia.
Qed.

(** ** [dijkstra] on any graph: what a returned path is *)

Lemma getitem2_Ret g u v d : getitem2 g u v = Ret d → edge_data g u v = Some d.
Proof.
  unfold getitem2, edge_data. destruct (od_get u g) as [e|]; [|done]. simpl.
  destruct (od_get v (n_adj e)); [|done]. by intros [= ->].
Qed.

Lemma tracked_queue_mono g wt start visited visited' pq :
  visited ⊆ visited' → tracked_queue g wt start visited pq →
  tracked_queue g wt start visited' pq.
Proof.
  intros Hsub Hq d v p Hin. destruct (Hq d v p Hin) as (H1 & H2 & H3 & H4).
  split; [done|]. split; [done|]. split; [done|].
  intros x Hx. destruct (H4 x Hx); [by left|right]. by apply Hsub.
Qed.

Lemma relax_tracked g wt start cn cw path visited pq dist n st' :
  relax g wt cn cw path visited (pq, dist) n = Ret st' →
  tracked_queue g wt start visited pq →
  is_path g start cn path → path_weight g wt path = cw →
  NoDup path → (∀ x, x ∈ path → x ∈ visited) →
  tracked_queue g wt start visited st'.1.
Proof.
  intros Hr Hq Hp Hw Hnd Hsub. unfold relax in Hr.
  destruct (decide (n ∈ visited)) as [|Hn]; [by injection Hr as <-|].
  destruct (getitem2 g cn n) as [de| |] eqn:Hde; try done. simpl in Hr.
  apply getitem2_Ret in Hde.
  destruct (dist !! n) as [dn|]; [|done].
  destruct (num_ltb _ _); [|by injection Hr as <-].
  injection Hr as <-. simpl.
  intros d v p [[= -> -> ->]|Hin]%elem_of_cons; [|by apply Hq].
  split; [|split; [|split]].
  - eapply is_path_snoc; [done|]. apply has_edge_spec. by rewrite Hde.
  - rewrite (path_weight_snoc g wt path cn n) by apply Hp.
    rewrite (edge_weight_Some g wt cn n de Hde). lia.
  - apply NoDup_app. split; [done|]. split; [|apply NoDup_singleton].
    intros x Hx ->%list_elem_of_singleton. by apply Hn, Hsub.
  - intros x [Hx| ->%list_elem_of_singleton]%elem_of_app; [right; by apply Hsub|by left].
Qed.

Lemma relax_all_tracked g wt start cn cw path visited nbrs : ∀ pq dist st',
  relax_all g wt cn cw path visited (pq, dist) nbrs = Ret st' →
  tracked_queue g wt start visited pq →
  is_path g start cn path → path_weight g wt path = cw →
  NoDup path → (∀ x, x ∈ path → x ∈ visited) →
  tracked_queue g wt start visited st'.1.
Proof.
  induction nbrs as [|n nbrs IH]; intros pq dist st' Hr Hq Hp Hw Hnd Hsub.
  - by injection Hr as <-.
  - simpl in Hr.
    destruct (relax g wt cn cw path visited (pq, dist) n) as [[pq1 dist1]| |] eqn:E;
      try done.
    simpl in Hr. eapply (IH pq1 dist1); try done.
    by apply (relax_tracked _ _ _ _ _ _ _ _ _ _ _ E).
Qed.

Lemma dijkstra_loop_tracked g wt start end_ fuel : ∀ pq visited dist r,
  tracked_queue g wt start visited pq →
  dijkstra_loop fuel g end_ wt pq visited dist = Ret r →
  r = (None, Inf)
  ∨ ∃ p d, r = (Some p, Fin d) ∧ is_path g start end_ p
           ∧ path_weight g wt p = d ∧ NoDup p.
Proof.
  induction fuel as [|fuel IH]; intros pq visited dist r Hq Hr; [done|].
  simpl in Hr. destruct (heappop pq) as [[[[cw cn] path] pq1]|] eqn:Hpop.
  2: { injection Hr as <-. by left. }
  pose proof (heappop_elem _ _ _ Hpop) as Hel.
  assert (tracked_queue g wt start visited pq1) as Hq1.
  { intros d v p Hin. apply Hq, Hel. by right. }
  destruct (Hq cw cn path) as (Hp & Hw & Hnd & Hsub); [apply Hel; by left|].
  destruct (decide (cn ∈ visited)); [by eapply IH|].
  destruct (decide (cn = end_)) as [->|Hne].
  { injection Hr as <-. right. by exists path, cw. }
  destruct (neighbors g cn) as [nbrs| |]; try done. simpl in Hr.
  destruct (relax_all g wt cn cw path ({[cn]} ∪ visited) (pq1, dist) nbrs)
    as [[pq2 dist2]| |] eqn:E; try done.
  simpl in Hr. eapply IH; [|done].
  apply (relax_all_tracked _ _ _ _ _ _ _ _ _ _ _ E); try done.
  - eapply tracked_queue_mono; [|done]. set_solver.
  - intros x Hx. destruct (Hsub x Hx) as [->|?]; set_solver.
Qed.

Lemma initial_queue_tracked g wt start : tracked_queue g wt start ∅ [(0, start, [start])].
Proof.
  intros d v p [[= -> -> ->]|[]%elem_of_nil]%elem_of_cons.
  split; [done|]. split; [done|]. split; [apply NoDup_singleton|].
  intros x ->%list_elem_of_singleton. by left.
Qed.

(** Whatever the graph and its weights, what [dijkstra] returns is
    [(None, inf)] or a path from [start] to [end_], without a repeated
    location, with its weight. *)
Lemma dijkstra_sound g wt start end_ r :
  dijkstra g start end_ wt = Ret r →
  r = (None, Inf)
  ∨ ∃ p d, r = (Some p, Fin d) ∧ is_path g start end_ p
           ∧ path_weight g wt p = d ∧ NoDup p.
Proof.
  unfold dijkstra. apply dijkstra_loop_tracked. apply initial_queue_tracked.
Qed.

(** From a location that is not in the graph [dijkstra] raises, unless the
    destination is that same name. *)
Lemma dijkstra_absent g wt start end_ :
  od_get start g = None → start ≠ end_ →
  dijkstra g start end_ wt = Raise (NetworkXError start).
Proof.
  intros Hs Hne. unfold dijkstra, dijkstra_fuel. simpl.
  rewrite decide_False by set_solver. rewrite decide_False by done.
  unfold neighbors. by rewrite Hs.
Qed.

(** ** [dijkstra]: further properties of the search *)

(** X1: for every graph and metric, [dijkstra] from a name that is not a
    location of the graph to a different name raises networkx's error for
    that name: the search pops its first item and asks for the neighbours
    of [start]. *)
Theorem dijkstra_from_absent_location_raises (g : Graph) (m start end_ : string) :
  has_node g start = false → start ≠ end_ →
  dijkstra g start end_ m = Raise (NetworkXError start).
Proof. intros Hs%has_node_false Hne. by apply dijkstra_absent. Qed.

Lemma dijkstra_from_absent_location_raises_witness :
  dijkstra sample_graph "Depot" "City_E" "cost" = Raise (NetworkXError "Depot").
Proof.
  apply (dijkstra_from_absent_location_raises sample_graph "cost" "Depot" "City_E").
  - reflexivity.
  - done.
Defined.

(** X2: for every graph, directed or not, and every weights, negative ones
    included: a value [dijkstra] returns is either [(None, inf)] or a path
    from [start] to [end_] that visits no location twice, paired with the
    summed weight of that path. *)
Theorem dijkstra_result_is_simple_path (g : Graph) (m start end_ : string)
    (path : option (list string)) (w : num) :
  dijkstra g start end_ m = Ret (path, w) →
  match path with
  | None => w = Inf
  | Some p => is_path g start end_ p ∧ NoDup p ∧ w = Fin (path_weight g m p)
  end.
Proof.
  intros [[= -> ->]|(p & d & [= -> ->] & Hp & Hw & Hnd)]%dijkstra_sound; [done|].
  by rewrite Hw.
Qed.

Lemma dijkstra_result_is_simple_path_witness :
  is_path sample_graph "City_A" "City_D" ["City_A"; "City_B"; "Hub_1"; "City_D"]
  ∧ NoDup ["City_A"; "City_B"; "Hub_1"; "City_D"]
  ∧ Fin 57 = Fin (path_weight sample_graph "time" ["City_A"; "City_B"; "Hub_1"; "City_D"]).
Proof.
  apply (dijkstra_result_is_simple_path sample_graph "time" "City_A" "City_D"
           (Some ["City_A"; "City_B"; "Hub_1"; "City_D"]) (Fin 57)).
  vm_compute. reflexivity.
Defined.





(** ** The multi-stop planner: the route it builds *)

Section planner_route.
Context (set_iter : gset string → list string).
Hypothesis set_iter_elem : ∀ X x, x ∈ set_iter X → x ∈ X.
Context (g : Graph) (m : string).
Hypothesis Hund : undirected g.



(** With [start] outside the graph the first search of the first round
    raises. *)
Lemma scan_stops_absent current stop stops b :
  od_get current g = None → stop ≠ current →
  scan_stops g m current b (stop :: stops) = Raise (NetworkXError current).
Proof. intros Hc Hne. simpl. by rewrite dijkstra_absent. Qed.

End planner_route.








(** ** [calculate_route]: the summary of a route *)




Lemma find_multi_stop_route_absent (set_iter : gset string → list string)
    (g : Graph) (m start : string) (stops : list string) :
  (∀ X x, x ∈ set_iter X ↔ x ∈ X) →
  od_get start g = None → stops ≠ [] → (∀ s, s ∈ stops → s ≠ start) →
  find_multi_stop_route set_iter g start stops m = Raise (NetworkXError start).
Proof.
  intros Hiter Hs Hne Hall. unfold find_multi_stop_route.
  destruct stops as [|s0 stops]; [done|].
  set (unvisited := list_to_set (s0 :: stops) : gset string).
  assert (s0 ∈ unvisited) as Hs0 by (unfold unvisited; set_solver).
  destruct (size unvisited) as [|fuel] eqn:Hsize.
  { apply size_empty_inv in Hsize. set_solver. }
  simpl. rewrite decide_False by set_solver.
  destruct (set_iter unvisited) as [|x xs] eqn:Hx.
  { apply Hiter in Hs0. rewrite Hx in Hs0. by apply elem_of_nil in Hs0. }
  rewrite scan_stops_absent; [done|done|].
  apply Hall. apply (elem_of_list_to_set (C := gset string)).
  fold unvisited. apply Hiter. rewrite Hx. left.
Qed.



(** X9: [calculate_route] checks that a start is selected, not that it is
    still a location of the network: for a non-empty start that is not in
    the graph and a selection with at least one stop other than the start,
    the first search of the planner raises networkx's error for the start
    (for every iteration order of the stop set that yields each element). *)
Theorem calculate_route_absent_start_raises (set_iter : gset string → list string)
    (g : Graph) (m start : string) (selected : list string) :
  (∀ X x, x ∈ set_iter X ↔ x ∈ X) →
  start ≠ "" → has_node g start = false →
  (∃ s, s ∈ selected ∧ s ≠ start) →
  calculate_route set_iter start selected m g = Raise (NetworkXError start).
Proof.
  intros Hiter Hne Hs%has_node_false (s0 & Hin & Hs0).
  unfold calculate_route. rewrite decide_False by done.
  assert (s0 ∈ filter (λ s, s ≠ start) selected) as H0
    by by apply list_elem_of_filter.
  destruct (filter (λ s, s ≠ start) selected) as [|s1 stops] eqn:Hf.
  { by apply elem_of_nil in H0. }
  rewrite (find_multi_stop_route_absent set_iter g m start (s1 :: stops) Hiter Hs);
    [done|done|].
  intros s Hs'. rewrite <- Hf in Hs'. by apply list_elem_of_filter in Hs' as [? _].
Qed.

Lemma calculate_route_absent_start_raises_witness :
  calculate_route elements "Depot" ["City_A"; "City_B"] "distance" sample_graph
  = Raise (NetworkXError "Depot").
Proof.
  apply (calculate_route_absent_start_raises elements sample_graph "distance"
           "Depot" ["City_A"; "City_B"]).
  - intros X x. apply elem_of_elements.
  - done.
  - reflexivity.
  - exists "City_A". split; [compute_done|done].
Defined.

(** ** Removing a location: what [remove_node] leaves *)

Lemma filter_ne_absent (k : string) (l : list string) :
  k ∉ l → filter (λ m, m ≠ k) l = l.
Proof.
  induction l as [|x l IH]; [done|]. intros Hk. rewrite filter_cons.
  rewrite decide_True by set_solver. f_equal. apply IH. set_solver.
Qed.

Lemma od_keys_del (V : Type) k (d : list (string * V)) :
  NoDup (od_keys d) → od_keys (od_del k d) = filter (λ m, m ≠ k) (od_keys d).
Proof.
  unfold od_keys. induction d as [|[k' v'] d IH]; simpl; [done|].
  intros [Hk Hd]%NoDup_cons. rewrite filter_cons. simpl.
  destruct (decide (k = k')) as [->|Hne].
  - rewrite decide_False by (by intros ?). by rewrite filter_ne_absent.
  - rewrite decide_True by done. simpl. f_equal. by apply IH.
Qed.

Lemma del_adj_keys_attrs u n g g' :
  del_adj u n g = Ret g' →
  od_keys g' = od_keys g ∧ ∀ m, n_attr <$> od_get m g' = n_attr <$> od_get m g.
Proof.
  unfold del_adj. destruct (od_get u g) as [e|] eqn:E; [|done].
  destruct (od_get n (n_adj e)); [|done]. intros [= <-]. split.
  - apply od_keys_set_present. by rewrite E.
  - intros m. destruct (decide (u = m)) as [->|Hne].
    + by rewrite od_get_set_eq, E.
    + by rewrite od_get_set_ne.
Qed.

Lemma del_adj_all_keys_attrs n nbrs : ∀ g g',
  del_adj_all nbrs n g = Ret g' →
  od_keys g' = od_keys g ∧ ∀ m, n_attr <$> od_get m g' = n_attr <$> od_get m g.
Proof.
  induction nbrs as [|u nbrs IH]; intros g g'; simpl.
  - by intros [= <-].
  - destruct (del_adj u n g) as [g1| |] eqn:E; try done. simpl. intros H.
    destruct (del_adj_keys_attrs _ _ _ _ E) as [K1 A1].
    destruct (IH _ _ H) as [K2 A2]. split; [congruence|].
    intros m. by rewrite A2, A1.
Qed.

(** [remove_node] on a location of a well-formed graph: it returns; the
    location is gone, with every route that touched it; nothing else
    changes. *)
Lemma remove_node_spec n g :
  graph_wf g → is_Some (od_get n g) →
  ∃ g', remove_node n g = Ret g'
        ∧ graph_wf g'
        ∧ od_get n g' = None
        ∧ nodes g' = filter (λ m, m ≠ n) (nodes g)
        ∧ (∀ m, m ≠ n → n_attr <$> od_get m g' = n_attr <$> od_get m g)
        ∧ (∀ x y, edge_data g' x y
                  = if decide (x = n ∨ y = n) then None else edge_data g x y).
Proof.
  intros Hg [e E]. pose proof Hg as [Hn Ha Hs Hd]. unfold remove_node. rewrite E.
  destruct (del_adj_all_spec n (od_keys (n_adj e)) g Hn Ha) as
    (g1 & Hdel & Hn1 & Ha1 & Hm1 & He1).
  { by eapply Ha. }
  { intros u Hu. apply od_get_is_Some in Hu as [d Hu].
    exists d. apply Hs. apply edge_data_Some. by exists e. }
  destruct (del_adj_all_keys_attrs _ _ _ _ Hdel) as [Hk1 Hat1].
  assert (remove_node n g = Ret (od_del n g1)) as Hrm.
  { unfold remove_node. by rewrite E, Hdel. }
  rewrite Hdel. simpl. exists (od_del n g1). split; [done|].
  split; [by eapply graph_wf_remove_node|].
  split; [by apply od_get_del_eq|]. split; [|split].
  - unfold nodes. rewrite od_keys_del by done. by rewrite Hk1.
  - intros m Hne. rewrite od_get_del_ne by done. apply Hat1.
  - intros x y. unfold edge_data at 1. destruct (decide (x = n)) as [->|Hx].
    + rewrite od_get_del_eq by done. by rewrite decide_True by (by left).
    + rewrite od_get_del_ne by done. fold (edge_data g1 x y). rewrite He1.
      destruct (decide (y = n)) as [->|Hy].
      * rewrite (decide_True (P := x = n ∨ n = n)) by (by right).
        destruct (decide (n = n ∧ x ∈ od_keys (n_adj e))) as [|Hnot]; [done|].
        destruct (edge_data g x n) as [d|] eqn:Exn; [|done].
        exfalso. apply Hnot. split; [done|].
        apply Hs in Exn. apply edge_data_Some in Exn as (e0 & He0 & Hx0).
        rewrite E in He0. injection He0 as <-.
        apply od_get_is_Some. by rewrite Hx0.
      * rewrite decide_False by naive_solver. by rewrite decide_False by naive_solver.
Qed.

(** ** What every network of the application satisfies *)

Lemma weights_dom_eq distance time cost : dom (weights distance time cost) = attr_names.
Proof. unfold weights, attr_names. rewrite !dom_insert_L, dom_empty_L. set_solver. Qed.

Lemma add_node_edge_data n attr g x y :
  edge_data (add_node n attr g) x y = edge_data g x y.
Proof.
  unfold add_node. destruct (od_get n g) as [e|] eqn:E;
    apply od_set_edge_data; by rewrite E.
Qed.

Lemma add_node_get_eq n attr g :
  od_get n (add_node n attr g)
  = Some (match od_get n g with
          | Some e => {| n_attr := attr ∪ n_attr e; n_adj := n_adj e |}
          | None => {| n_attr := attr; n_adj := [] |}
          end).
Proof. unfold add_node. destruct (od_get n g); by rewrite od_get_set_eq. Qed.

Lemma ensure_node_attr n g m :
  n_attr <$> od_get m (ensure_node n g)
  = match od_get m g with
    | Some e => Some (n_attr e)
    | None => if decide (m = n) then Some ∅ else None
    end.
Proof.
  unfold ensure_node. destruct (od_get n g) as [e|] eqn:E.
  - destruct (od_get m g) as [e'|] eqn:E'; [done|].
    rewrite decide_False; [done|]. intros ->. by rewrite E in E'.
  - destruct (decide (m = n)) as [->|Hne].
    + by rewrite od_get_set_eq, E.
    + rewrite od_get_set_ne by done. by destruct (od_get m g).
Qed.

(** The attribute dictionaries of the nodes after [add_edge]: those of
    the graph, and an empty one for an endpoint that had to be created. *)
Lemma add_edge_attr u v attr g m :
  n_attr <$> od_get m (add_edge u v attr g)
  = match od_get m g with
    | Some e => Some (n_attr e)
    | None => if decide (m = u ∨ m = v) then Some ∅ else None
    end.
Proof.
  unfold add_edge. rewrite !set_adj_attr, ensure_node_attr.
  pose proof (ensure_node_attr u g m) as H.
  destruct (od_get m (ensure_node u g)) as [e1|], (od_get m g) as [e|];
    simpl in H; try done.
  - destruct (decide (m = u)) as [->|Hne]; [|done].
    by rewrite decide_True by (by left).
  - destruct (decide (m = u)) as [->|Hne]; [done|].
    destruct (decide (m = v)) as [->|Hne'].
    + by rewrite decide_True by (by right).
    + by rewrite decide_False by naive_solver.
Qed.

Lemma add_edge_is_node u v attr g m :
  is_Some (od_get m (add_edge u v attr g)) ↔ is_Some (od_get m g) ∨ m = u ∨ m = v.
Proof.
  rewrite <- (fmap_is_Some n_attr (od_get m (add_edge u v attr g))), add_edge_attr.
  destruct (od_get m g) as [e|].
  - split; [by left|done].
  - destruct (decide (m = u ∨ m = v)) as [H|H].
    + split; [by right|done].
    + split; [by intros [? ?]|]. intros [[? ?]|?]; done.
Qed.

(** The two ways [remove_location] can return. *)
Lemma remove_location_Ret loc s s' dlg :
  remove_location loc true s = Ret (s', dlg) →
  (loc = "" ∧ s' = s)
  ∨ (loc ≠ ""
     ∧ ∃ g', remove_node loc (graph s) = Ret g'
             ∧ is_Some (od_get loc (graph s))
             ∧ s' = {| graph := g'; locations := delete loc (locations s);
                       edge_weights := edge_weights s |}
             ∧ dlg = Some (ShowInfo ("Location '" +:+ loc +:+ "' removed!"))).
Proof.
  unfold remove_location. destruct (decide (loc = "")) as [->|Hne].
  - intros [= <- _]. by left.
  - destruct (remove_node loc (graph s)) as [g'| |] eqn:E; try done. simpl.
    intros [= <- <-]. right. split; [done|]. exists g'. split; [done|].
    split; [|done]. unfold remove_node in E. by destruct (od_get loc (graph s)).
Qed.

Lemma built_edge_attrs s u v d :
  built s → edge_data (graph s) u v = Some d → attr_names ⊆ dom d.
Proof.
  intros Hb. revert u v d.
  induction Hb as [|s name p _ IH|s a b distance time cost _ IH|s loc s' dlg Hb IH Hrm];
    intros u v d; simpl.
  - done.
  - rewrite add_node_edge_data. apply IH.
  - rewrite add_edge_edge_data.
    destruct (decide ((u = a ∧ v = b) ∨ (u = b ∧ v = a))); [|apply IH].
    intros [= <-]. rewrite dom_union, weights_dom_eq. set_solver.
  - apply remove_location_Ret in Hrm as [[_ ->]|(_ & g' & Hg' & Hloc & -> & _)];
      [apply IH|]. simpl.
    destruct (remove_node_spec loc (graph s) (built_graph_wf s Hb) Hloc)
      as (g'' & Hg'' & _ & _ & _ & _ & He).
    rewrite Hg' in Hg''. injection Hg'' as <-. rewrite He.
    destruct (decide (u = loc ∨ v = loc)); [done|apply IH].
Qed.

Lemma graph_wf_full_attrs g :
  graph_wf g → (∀ u v d, edge_data g u v = Some d → attr_names ⊆ dom d) →
  full_attrs g.
Proof.
  intros [Hn Ha _ _] Hd. unfold full_attrs.
  apply Forall_forall. intros [u e] Hu. apply Forall_forall. intros [v d] Hv. simpl.
  apply od_elem_of_get in Hu; [|done].
  apply (Hd u v). apply edge_data_Some. exists e. split; [done|].
  apply od_elem_of_get; [by eapply Ha|done].
Qed.

Lemma built_full_attrs s : built s → full_attrs (graph s).
Proof.
  intros Hb. apply graph_wf_full_attrs; [by apply built_graph_wf|].
  intros u v d. by apply built_edge_attrs.
Qed.

Lemma get_node_attributes_lookup g name n :
  NoDup (od_keys g) →
  get_node_attributes g name !! n = od_get n g ≫= λ e, n_attr e !! name.
Proof.
  unfold get_node_attributes, od_keys.
  induction g as [|[k e] g IH]; [done|]. intros [Hk Hg]%NoDup_cons.
  specialize (IH Hg). simpl in *.
  destruct (decide (n = k)) as [->|Hne]; simpl.
  - destruct (n_attr e !! name) as [v|]; simpl.
    + by rewrite lookup_insert_eq.
    + etrans; [exact IH|]. destruct (od_get k g) eqn:E; [|done].
      destruct Hk. apply (od_get_is_Some k g). by rewrite E.
  - destruct (n_attr e !! name) as [v|]; simpl.
    + rewrite lookup_insert_ne by done. exact IH.
    + exact IH.
Qed.

Lemma built_locations s n :
  built s → locations s !! n = od_get n (graph s) ≫= λ e, n_attr e !! "pos".
Proof.
  intros Hb. revert n.
  induction Hb as [|s name p _ IH|s a b distance time cost _ IH|s loc s' dlg Hb IH Hrm];
    intros n; simpl.
  - done.
  - destruct (decide (name = n)) as [->|Hne].
    + rewrite lookup_insert_eq, add_node_get_eq. simpl.
      destruct (od_get n (graph s)); simpl.
      * symmetry. apply lookup_union_Some_l. apply lookup_singleton_eq.
      * symmetry. apply lookup_singleton_eq.
    + rewrite lookup_insert_ne by done. rewrite add_node_get_ne by done. apply IH.
  - rewrite IH.
    pose proof (add_edge_attr a b (weights distance time cost) (graph s) n) as H.
    destruct (od_get n (add_edge a b (weights distance time cost) (graph s))) as [e'|];
      destruct (od_get n (graph s)) as [e|]; simpl in *.
    + by injection H as ->.
    + destruct (decide (n = a ∨ n = b)); [|done]. by injection H as ->.
    + done.
    + done.
  - apply remove_location_Ret in Hrm as [[_ ->]|(_ & g' & Hg' & Hloc & -> & _)];
      [apply IH|]. simpl.
    destruct (remove_node_spec loc (graph s) (built_graph_wf s Hb) Hloc)
      as (g'' & Hg'' & _ & Hgone & _ & Hat & _).
    rewrite Hg' in Hg''. injection Hg'' as <-.
    destruct (decide (loc = n)) as [->|Hne].
    + by rewrite lookup_delete_eq, Hgone.
    + rewrite lookup_delete_ne by done. rewrite IH.
      specialize (Hat n (not_eq_sym Hne)).
      destruct (od_get n g') as [e'|], (od_get n (graph s)) as [e|]; simpl in *;
        try done.
      by injection Hat as ->.
Qed.

Lemma handled_built s : handled s → built s.
Proof.
  induction 1 as [|s name p _ IH|s a b distance time cost _ IH|s loc c s' dlg _ IH Hrm].
  - apply sample_optimizer_built.
  - unfold add_new_location. destruct (decide (name = "")); [done|].
    destruct (has_node (graph s) name); [done|]. by apply built_add_location.
  - unfold add_new_route. destruct (decide (a = "" ∨ b = "")); [done|].
    destruct (decide (a = b)); [done|]. by apply built_add_route.
  - destruct c; [by eapply built_remove_location|].
    unfold remove_location in Hrm. destruct (decide (loc = ""));
      by injection Hrm as <- _.
Qed.

Lemma foldl_snoc_nodes (l acc : list string) :
  foldl (λ items node, items ++ [node]) acc l = acc ++ l.
Proof.
  revert acc. induction l as [|x l IH]; intros acc; simpl.
  - by rewrite app_nil_r.
  - rewrite IH. by rewrite <- app_assoc.
Qed.

Lemma no_self_loop_intro (g : Graph) :
  Forall (λ ne : string * NodeEntry, od_get ne.1 (n_adj ne.2) = None) g →
  ∀ u, edge_data g u u = None.
Proof.
  intros Hg u. unfold edge_data. destruct (od_get u g) as [e|] eqn:E; [|done].
  simpl. apply od_get_elem_of in E. rewrite Forall_forall in Hg. exact (Hg _ E).
Qed.

(** Through the handlers no location gets the empty name and no route
    joins a location to itself. *)
Lemma handled_proper s :
  handled s → od_get "" (graph s) = None ∧ ∀ u, edge_data (graph s) u u = None.
Proof.
  induction 1 as [|s name p _ [IH1 IH2]|s a b distance time cost _ [IH1 IH2]
                  |s loc c s' dlg Hs [IH1 IH2] Hrm].
  - split; [done|]. apply no_self_loop_intro. compute_done.
  - unfold add_new_location. destruct (decide (name = "")); [done|].
    destruct (has_node (graph s) name); [done|]. simpl. split.
    + by rewrite add_node_get_ne.
    + intros u. by rewrite add_node_edge_data.
  - unfold add_new_route. destruct (decide (a = "" ∨ b = "")) as [|Hne]; [done|].
    destruct (decide (a = b)); [done|]. simpl. split.
    + apply eq_None_not_Some. rewrite add_edge_is_node, IH1.
      intros [[? ?]|[?|?]]; [done|apply Hne; by left|apply Hne; by right].
    + intros u. rewrite add_edge_edge_data. rewrite decide_False; [done|].
      intros [[-> ->]|[-> ->]]; done.
  - destruct c.
    2: { unfold remove_location in Hrm. destruct (decide (loc = ""));
           by injection Hrm as <- _. }
    apply remove_location_Ret in Hrm as [[_ ->]|(Hne & g' & Hg' & Hloc & -> & _)];
      [done|]. simpl.
    destruct (remove_node_spec loc (graph s) (built_graph_wf s (handled_built s Hs)) Hloc)
      as (g'' & Hg'' & _ & _ & _ & Hat & He).
    rewrite Hg' in Hg''. injection Hg'' as <-. split.
    + specialize (Hat "" (not_eq_sym Hne)). rewrite IH1 in Hat.
      by destruct (od_get "" g').
    + intros u. rewrite He. by destruct (decide (u = loc ∨ u = loc)).
Qed.

(** X10: every network the application can hold (built from the empty
    one by [add_location], [add_route] and [remove_location]) lists each
    location once, and each of its routes can be read from both ends with
    the same attribute dictionary, joins two locations of the network and
    carries exactly the attributes distance, time and cost: the defaults of
    [edge_data.get(weight_type, 1)] (for these three metrics) and of
    [edge.get('distance', 0)] are never used, and [data['distance']] in
    [draw_network] never fails. *)
Theorem built_routes_are_symmetric_and_complete (s : Optimizer) :
  built s →
  NoDup (nodes (graph s))
  ∧ ∀ u v d, edge_data (graph s) u v = Some d →
      edge_data (graph s) v u = Some d
      ∧ dom d = attr_names
      ∧ has_node (graph s) u = true ∧ has_node (graph s) v = true.
Proof.
  intros Hb. pose proof (built_graph_wf s Hb) as [Hn Ha Hs Hd].
  split; [done|]. intros u v d Huv. pose proof (Hs u v d Huv) as Hvu.
  split; [done|]. split; [|split].
  - apply set_eq. intros k. split.
    + apply (Hd u v d Huv).
    + apply (built_edge_attrs s u v d Hb Huv).
  - apply has_node_spec. apply edge_data_Some in Huv as (e & -> & _). done.
  - apply has_node_spec. apply edge_data_Some in Hvu as (e & -> & _). done.
Qed.

Lemma built_routes_are_symmetric_and_complete_witness :
  NoDup (nodes (graph sample_optimizer))
  ∧ ∀ u v d, edge_data (graph sample_optimizer) u v = Some d →
      edge_data (graph sample_optimizer) v u = Some d
      ∧ dom d = attr_names
      ∧ has_node (graph sample_optimizer) u = true
      ∧ has_node (graph sample_optimizer) v = true.
Proof.
  apply (built_routes_are_symmetric_and_complete sample_optimizer).
  unfold sample_optimizer, initialize_sample_data. simpl.
  repeat (first [apply built_add_route | apply built_add_location]).
  apply built_empty.
Defined.

(** X11: in every network the application can hold, the positions that
    [draw_network] reads from the graph
    ([nx.get_node_attributes(self.graph, 'pos')]) are exactly the
    dictionary [self.locations]: the two copies of the positions that
    [add_location] writes and [remove_location] deletes never disagree,
    and a location created by [add_route] has a position in neither. *)
Theorem positions_agree_with_locations (s : Optimizer) :
  built s → get_node_attributes (graph s) "pos" = locations s.
Proof.
  intros Hb. apply map_eq. intros n.
  rewrite get_node_attributes_lookup by apply (built_graph_wf s Hb).
  symmetry. by apply built_locations.
Qed.

Lemma positions_agree_with_locations_witness :
  get_node_attributes
    (graph (add_route "Depot" "Yard" 4 5 6
              (add_location "Depot" (1 # 2, 1 # 2)%Q empty_optimizer))) "pos"
  = locations (add_route "Depot" "Yard" 4 5 6
                 (add_location "Depot" (1 # 2, 1 # 2)%Q empty_optimizer)).
Proof.
  apply (positions_agree_with_locations
           (add_route "Depot" "Yard" 4 5 6
              (add_location "Depot" (1 # 2, 1 # 2)%Q empty_optimizer))).
  apply built_add_route, built_add_location, built_empty.
Defined.

(** X12: in every network reached through the handlers of the window
    ([add_new_location], [add_new_route], [remove_location], from the
    sample network), no location has the empty name, each location is
    listed once, no route joins a location to itself, and
    [update_all_combos] offers exactly the locations of the network in the
    four combo boxes and in the list of stops. *)
Theorem handlers_keep_network_proper (s : Optimizer) (w : Widgets) :
  handled s →
  has_node (graph s) "" = false
  ∧ NoDup (nodes (graph s))
  ∧ (∀ u, has_edge (graph s) u u = false)
  ∧ update_all_combos s w
    = {| start_values := nodes (graph s); from_values := nodes (graph s);
         to_values := nodes (graph s); remove_values := nodes (graph s);
         stops_items := nodes (graph s) |}.
Proof.
  intros Hs. destruct (handled_proper s Hs) as [H1 H2].
  split; [by apply has_node_false|].
  split; [apply (built_graph_wf s (handled_built s Hs))|]. split.
  - intros u. unfold has_edge. rewrite H2. by apply bool_decide_eq_false.
  - unfold update_all_combos, update_stops_list. simpl.
    by rewrite foldl_snoc_nodes.
Qed.

Lemma handlers_keep_network_proper_witness :
  let s := (add_new_route "Depot" "City_A" 7 9 4
              (add_new_location "Depot" (1 # 2, 1 # 2)%Q sample_optimizer).1).1 in
  let w := {| start_values := []; from_values := []; to_values := [];
              remove_values := []; stops_items := [] |} in
  has_node (graph s) "" = false
  ∧ NoDup (nodes (graph s))
  ∧ (∀ u, has_edge (graph s) u u = false)
  ∧ update_all_combos s w
    = {| start_values := nodes (graph s); from_values := nodes (graph s);
         to_values := nodes (graph s); remove_values := nodes (graph s);
         stops_items := nodes (graph s) |}.
Proof.
  apply (handlers_keep_network_proper
           (add_new_route "Depot" "City_A" 7 9 4
              (add_new_location "Depot" (1 # 2, 1 # 2)%Q sample_optimizer).1).1).
  apply handled_add_new_route, handled_add_new_location, handled_init.
Defined.


(** ** Removing and adding locations and routes, and the search after it *)



(** X15: [remove_location] does not check that the selected name is still
    a location: in a network the application can hold, after a confirmed
    removal of a non-empty name has returned, a second confirmed removal of
    the same name raises networkx's error for that name. *)
Theorem remove_location_twice_raises (s s' : Optimizer) (loc : string)
    (dlg : option dialog) :
  built s → loc ≠ "" →
  remove_location loc true s = Ret (s', dlg) →
  remove_location loc true s' = Raise (NetworkXError loc).
Proof.
  intros Hb Hne Hrm.
  apply remove_location_Ret in Hrm as [[? _]|(_ & g' & Hg' & Hloc & -> & _)]; [done|].
  destruct (remove_node_spec loc (graph s) (built_graph_wf s Hb) Hloc)
    as (g'' & Hg'' & _ & Hgone & _).
  rewrite Hg' in Hg''. injection Hg'' as <-.
  unfold remove_location. rewrite decide_False by done. simpl.
  unfold remove_node. by rewrite Hgone.
Qed.

Lemma remove_location_twice_raises_witness :
  remove_location "Depot" true empty_optimizer = Raise (NetworkXError "Depot").
Proof.
  apply (remove_location_twice_raises
           (add_location "Depot" (1 # 2, 1 # 2)%Q empty_optimizer) empty_optimizer
           "Depot" (Some (ShowInfo "Location 'Depot' removed!"))).
  - apply built_add_location, built_empty.
  - done.
  - vm_compute. reflexivity.
Defined.


Lemma od_set_absent (V : Type) k (v : V) (d : list (string * V)) :
  od_get k d = None → od_set k v d = d ++ [(k, v)].
Proof.
  induction d as [|[k' v'] d IH]; simpl; [done|].
  destruct (decide (k = k')); [done|]. intros H. f_equal. by apply IH.
Qed.



(** A location without neighbours cannot be reached from another one. *)
Lemma isolated_no_path g a b :
  undirected g → (∀ v, edge_data g b v = None) → a ≠ b →
  ∀ q, ¬ is_path g a b q.
Proof.
  intros Hg Hb Hne q Hq. destruct q as [|v p _] using rev_ind.
  { by destruct Hq as [? _]. }
  pose proof (is_path_last _ _ _ _ _ Hq) as ->.
  destruct p as [|x p].
  - destruct Hq as (_ & [= ->] & _). done.
  - apply is_path_snoc_inv in Hq as (u & _ & He).
    apply (has_edge_sym g u v Hg), has_edge_spec in He as [d Hd].
    by rewrite Hb in Hd.
Qed.

(** X17: a location that [add_new_location] has just added is cut off: in
    a network the application can hold, after a non-empty new name has
    been added, [dijkstra] between any other location and the new one
    returns [(None, inf)] in both directions, under every metric. *)
Theorem new_location_is_unreachable (s : Optimizer) (name other m : string) (p : pos) :
  built s → name ≠ "" →
  has_node (graph s) name = false → has_node (graph s) other = true →
  dijkstra (graph (add_new_location name p s).1) other name m = Ret (None, Inf)
  ∧ dijkstra (graph (add_new_location name p s).1) name other m = Ret (None, Inf).
Proof.
  intros Hb Hne Hn Ho. unfold add_new_location.
  rewrite decide_False by done. rewrite Hn. simpl.
  assert (name ≠ other) as Hno by (intros ->; congruence).
  apply has_node_false in Hn. apply has_node_spec in Ho.
  pose proof (built_undirected _ (built_add_location s name p Hb)) as Hund.
  simpl in Hund. set (g' := add_node name {["pos" := p]} (graph s)) in *.
  assert (∀ v, edge_data g' name v = None) as Hiso.
  { intros v. unfold edge_data, g'. by rewrite add_node_get_eq, Hn. }
  assert (is_Some (od_get other g')) as Ho'.
  { unfold g'. by rewrite add_node_get_ne. }
  assert (is_Some (od_get name g')) as Hn'.
  { unfold g'. by rewrite add_node_get_eq. }
  assert (∀ q, ¬ is_path g' other name q) as Hno1.
  { by apply isolated_no_path. }
  split; apply dijkstra_no_path; try done.
  intros q Hq. destruct (is_path_rev g' m name other q Hund Hq) as [Hrev _].
  by apply (Hno1 _ Hrev).
Qed.

Lemma new_location_is_unreachable_witness :
  dijkstra (graph (add_new_location "Depot" (1 # 2, 1 # 2)%Q sample_optimizer).1)
    "Warehouse" "Depot" "time" = Ret (None, Inf)
  ∧ dijkstra (graph (add_new_location "Depot" (1 # 2, 1 # 2)%Q sample_optimizer).1)
      "Depot" "Warehouse" "time" = Ret (None, Inf).
Proof.
  apply (new_location_is_unreachable sample_optimizer "Depot" "Warehouse" "time"
           (1 # 2, 1 # 2)%Q).
  - unfold sample_optimizer, initialize_sample_data. simpl.
    repeat (first [apply built_add_route | apply built_add_location]).
    apply built_empty.
  - done.
  - reflexivity.
  - reflexivity.
Defined.

(** X18: after a confirmed [remove_location] of a non-empty name has
    returned, in a network the application can hold, [dijkstra] from any
    remaining location to the removed name returns [(None, inf)], and
    [dijkstra] from the removed name to a remaining location raises
    networkx's error for the removed name. *)
Theorem removed_location_is_unreachable (s s' : Optimizer) (loc start m : string)
    (dlg : option dialog) :
  built s → loc ≠ "" →
  remove_location loc true s = Ret (s', dlg) →
  has_node (graph s') start = true →
  dijkstra (graph s') start loc m = Ret (None, Inf)
  ∧ dijkstra (graph s') loc start m = Raise (NetworkXError loc).
Proof.
  intros Hb Hne Hrm Hs%has_node_spec.
  pose proof (built_undirected _ (built_remove_location s loc s' dlg Hb Hrm)) as Hund.
  apply remove_location_Ret in Hrm as [[? _]|(_ & g' & Hg' & Hloc & -> & _)]; [done|].
  destruct (remove_node_spec loc (graph s) (built_graph_wf s Hb) Hloc)
    as (g'' & Hg'' & _ & Hgone & _).
  rewrite Hg' in Hg''. injection Hg'' as <-. simpl in *.
  assert (loc ≠ start) as Hls.
  { intros ->. rewrite Hgone in Hs. by destruct Hs. }
  split.
  - apply dijkstra_no_path; [done|done|]. by apply no_path_to_absent.
  - by apply dijkstra_absent.
Qed.

Lemma removed_location_is_unreachable_witness :
  let s := add_route "Depot" "Yard" 4 5 6
             (add_location "Yard" (1 # 4, 1 # 4)%Q empty_optimizer) in
  let s' := {| graph := graph (add_location "Yard" (1 # 4, 1 # 4)%Q empty_optimizer);
               locations := locations s;
               edge_weights := edge_weights s |} in
  dijkstra (graph s') "Yard" "Depot" "cost" = Ret (None, Inf)
  ∧ dijkstra (graph s') "Depot" "Yard" "cost" = Raise (NetworkXError "Depot").
Proof.
  apply (removed_location_is_unreachable
           (add_route "Depot" "Yard" 4 5 6
              (add_location "Yard" (1 # 4, 1 # 4)%Q empty_optimizer))
           {| graph := graph (add_location "Yard" (1 # 4, 1 # 4)%Q empty_optimizer);
              locations := locations
                (add_route "Depot" "Yard" 4 5 6
                   (add_location "Yard" (1 # 4, 1 # 4)%Q empty_optimizer));
              edge_weights := edge_weights
                (add_route "Depot" "Yard" 4 5 6
                   (add_location "Yard" (1 # 4, 1 # 4)%Q empty_optimizer)) |}
           "Depot" "Yard" "cost"
           (Some (ShowInfo "Location 'Depot' removed!"))).
  - apply built_add_route, built_add_location, built_empty.
  - done.
  - vm_compute. reflexivity.
  - reflexivity.
Defined.

Lemma graph_wf_nonneg g m :
  graph_wf g → (∀ u v d, edge_data g u v = Some d → 0 ≤ default 1 (d !! m)) →
  nonneg_weights g m.
Proof.
  intros [Hn Ha _ _] Hd. unfold nonneg_weights.
  apply Forall_forall. intros [u e] Hu. apply Forall_forall. intros [v d] Hv. simpl.
  apply od_elem_of_get in Hu; [|done].
  apply (Hd u v). apply edge_data_Some. exists e. split; [done|].
  apply od_elem_of_get; [by eapply Ha|done].
Qed.

Lemma weights_nonneg distance time cost m x :
  0 ≤ distance → 0 ≤ time → 0 ≤ cost →
  weights distance time cost !! m = Some x → 0 ≤ x.
Proof.
  intros Hd Ht Hc. unfold weights.
  intros [[_ <-]|[_ [[_ <-]|[_ [[_ <-]|[_ ?]]%lookup_insert_Some]]%lookup_insert_Some]]
    %lookup_insert_Some; done.
Qed.

(** The attributes of a route after [add_route], in a well-formed graph:
    under each metric the search reads the new number, and 1 under a name
    that is no attribute. *)
Lemma add_route_edge_lookup g a b distance time cost m :
  graph_wf g →
  (weights distance time cost ∪ default ∅ (edge_data g a b)) !! m
  = weights distance time cost !! m.
Proof.
  intros Hg. destruct (weights distance time cost !! m) as [x|] eqn:E.
  - by apply lookup_union_Some_l.
  - apply lookup_union_None. split; [done|].
    destruct (edge_data g a b) as [old|] eqn:Eo; simpl; [|done].
    apply not_elem_of_dom. intros Hin%(wf_attrs g Hg a b old Eo).
    rewrite <- (weights_dom_eq distance time cost) in Hin.
    apply elem_of_dom in Hin as [? Hin]. by rewrite E in Hin.
Qed.

Lemma add_route_nonneg g a b distance time cost m :
  graph_wf g → nonneg_weights g m → 0 ≤ distance → 0 ≤ time → 0 ≤ cost →
  nonneg_weights (add_edge a b (weights distance time cost) g) m.
Proof.
  intros Hg Hnn Hd Ht Hc.
  apply graph_wf_nonneg; [apply graph_wf_add_edge; [apply weights_dom|done]|].
  intros u v d. rewrite add_edge_edge_data.
  destruct (decide ((u = a ∧ v = b) ∨ (u = b ∧ v = a))).
  - intros [= <-]. rewrite add_route_edge_lookup by done.
    destruct (weights distance time cost !! m) as [x|] eqn:E; simpl; [|done].
    exact (weights_nonneg distance time cost m x Hd Ht Hc E).
  - intros E. pose proof (nonneg_edge_weight g m u v Hnn) as H.
    by rewrite (edge_weight_Some g m u v d E) in H.
Qed.



(** A route between two locations that had none leaves every path of the
    network a path, at the same weight. *)
Lemma add_edge_new_keeps_paths g a b w m p :
  undirected g → has_edge g a b = false → valid_path g p = true →
  valid_path (add_edge a b w g) p = true
  ∧ path_weight (add_edge a b w g) m p = path_weight g m p.
Proof.
  intros Hg Hab. induction p as [|u [|v p] IH]; [done|done|].
  intros Hv.
  change (has_edge g u v && valid_path g (v :: p) = true) in Hv.
  apply andb_true_iff in Hv as [Huv Hv]. destruct (IH Hv) as [IH1 IH2].
  assert (edge_data (add_edge a b w g) u v = edge_data g u v) as He.
  { rewrite add_edge_edge_data. rewrite decide_False; [done|].
    intros [[-> ->]|[-> ->]]; [congruence|].
    apply (has_edge_sym g b a Hg) in Huv. congruence. }
  split.
  - change (has_edge (add_edge a b w g) u v
            && valid_path (add_edge a b w g) (v :: p) = true).
    rewrite IH1, andb_true_r. unfold has_edge in *. by rewrite He.
  - change (edge_weight (add_edge a b w g) m u v
            + path_weight (add_edge a b w g) m (v :: p)
            = edge_weight g m u v + path_weight g m (v :: p)).
    rewrite IH2. unfold edge_weight. by rewrite He.
Qed.

(** X20: a new route never lengthens a journey: in a network the
    application can hold whose weights under the metric are not negative,
    when [dijkstra] finds a path from a location [x] to [y] of weight [d0],
    then after [add_route] with non-negative numbers between two locations
    that had no route it finds a path from [x] to [y] of weight at most
    [d0]. *)
Theorem add_route_never_lengthens (s : Optimizer) (a b x y m : string)
    (distance time cost : Z) (p0 : list string) (d0 : Z) :
  built s → nonneg_weights (graph s) m →
  0 ≤ distance → 0 ≤ time → 0 ≤ cost →
  has_edge (graph s) a b = false → has_node (graph s) x = true →
  dijkstra (graph s) x y m = Ret (Some p0, Fin d0) →
  ∃ p1 d1, dijkstra (graph (add_route a b distance time cost s)) x y m
           = Ret (Some p1, Fin d1)
           ∧ d1 ≤ d0.
Proof.
  intros Hb Hnn Hd Ht Hc Hab Hx%has_node_spec H0.
  pose proof (built_graph_wf s Hb) as Hg.
  pose proof (built_undirected s Hb) as Hund0.
  pose proof (built_undirected _ (built_add_route s a b distance time cost Hb)) as Hund.
  pose proof (add_route_nonneg _ a b distance time cost m Hg Hnn Hd Ht Hc) as Hnn'.
  simpl in *. set (g' := add_edge a b (weights distance time cost) (graph s)) in *.
  apply dijkstra_sound in H0 as [?|(? & ? & [= <- <-] & Hp0 & Hw0 & _)]; [done|].
  destruct Hp0 as (Hv0 & Hh0 & Hl0).
  destruct (add_edge_new_keeps_paths (graph s) a b (weights distance time cost) m p0
              Hund0 Hab Hv0) as [Hv1 Hw1].
  assert (is_path g' x y p0) as Hp1 by done.
  assert (is_Some (od_get x g')) as Hx'.
  { unfold g'. apply add_edge_is_node. by left. }
  destruct (dijkstra_total g' m x y Hund Hx') as (r & Hr & Hcases).
  pose proof (dijkstra_optimal g' m x y Hund Hnn' r Hr) as Hopt.
  destruct Hcases as [->|(p1 & d1 & -> & _)]; simpl in Hopt.
  - by destruct (Hopt _ Hp1).
  - destruct Hopt as (? & [= <-] & Hmin). exists p1, d1. split; [done|].
    specialize (Hmin _ Hp1). fold g' in Hw1. lia.
Qed.

Lemma add_route_never_lengthens_witness :
  ∃ p1 d1, dijkstra (graph (add_route "Warehouse" "City_E" 30 40 50 sample_optimizer))
             "Warehouse" "City_E" "distance" = Ret (Some p1, Fin d1)
           ∧ d1 ≤ 53.
Proof.
  apply (add_route_never_lengthens sample_optimizer "Warehouse" "City_E"
           "Warehouse" "City_E" "distance" 30 40 50
           ["Warehouse"; "Hub_1"; "City_D"; "City_E"] 53).
  - unfold sample_optimizer, initialize_sample_data. simpl.
    repeat (first [apply built_add_route | apply built_add_location]).
    apply built_empty.
  - compute_done.
  - lia.
  - lia.
  - lia.
  - reflexivity.
  - reflexivity.
  - vm_compute. reflexivity.
Defined.



(** ** Counting the routes *)

Lemma edges_from_snoc_isolated (g : Graph) n e : ∀ seen,
  n_adj e = [] → edges_from seen (g ++ [(n, e)]) = edges_from seen g.
Proof.
  induction g as [|[k e0] g IH]; intros seen He; simpl.
  - by rewrite He.
  - by rewrite IH.
Qed.

Lemma ensure_node_edges n g seen :
  edges_from seen (ensure_node n g) = edges_from seen g.
Proof.
  unfold ensure_node. destruct (od_get n g) eqn:E; [done|].
  rewrite od_set_absent by done. by apply edges_from_snoc_isolated.
Qed.

(** Replacing the entry of one node changes the count by the change in the
    number of its neighbours that are reported from it. *)
Lemma edges_from_od_set u (e e' : NodeEntry) (g : Graph) : ∀ seen,
  od_get u g = Some e →
  (length (edges_from seen (od_set u e' g))
   + length (filter (λ x : string * gmap string Z, x.1 ∉ seen_before u seen g) (n_adj e))
   = length (edges_from seen g)
     + length (filter (λ x : string * gmap string Z, x.1 ∉ seen_before u seen g)
                 (n_adj e')))%nat.
Proof.
  induction g as [|[n e0] g IH]; intros seen; [done|]. simpl.
  destruct (decide (u = n)) as [->|Hne].
  - intros [= ->]. simpl. rewrite !length_app, !length_fmap. lia.
  - intros He. simpl. rewrite !length_app, !length_fmap.
    specialize (IH (n :: seen) He). lia.
Qed.

Lemma seen_before_mono u x (g : Graph) : ∀ seen,
  x ∈ seen → x ∈ seen_before u seen g.
Proof.
  induction g as [|[n e0] g IH]; intros seen Hx; [done|]. simpl.
  destruct (decide (u = n)); [done|]. apply IH. by right.
Qed.

Lemma seen_before_self u (g : Graph) : ∀ seen,
  u ∉ seen → u ∉ seen_before u seen g.
Proof.
  induction g as [|[n e0] g IH]; intros seen Hu; [done|]. simpl.
  destruct (decide (u = n)); [done|]. apply IH. set_solver.
Qed.

Lemma seen_before_keys u (g g' : Graph) : ∀ seen,
  od_keys g = od_keys g' → seen_before u seen g = seen_before u seen g'.
Proof.
  unfold od_keys. revert g'.
  induction g as [|[n e0] g IH]; intros [|[n' e0'] g'] seen; try done.
  simpl. intros [= -> Hk]. destruct (decide (u = n')); [done|]. by apply IH.
Qed.

(** Of two different nodes, one comes first. *)
Lemma seen_before_order a b (g : Graph) : ∀ seen,
  a ≠ b → a ∈ od_keys g → b ∈ od_keys g → a ∉ seen → b ∉ seen →
  (b ∈ seen_before a seen g ∧ (a ∉ seen_before b seen g))
  ∨ ((b ∉ seen_before a seen g) ∧ a ∈ seen_before b seen g).
Proof.
  unfold od_keys.
  induction g as [|[n e0] g IH]; intros seen Hab Ha Hb Has Hbs.
  { by apply elem_of_nil in Ha. }
  simpl in *. destruct (decide (a = n)) as [->|Han].
  - right. split; [done|]. rewrite decide_False by done.
    apply seen_before_mono. left.
  - destruct (decide (b = n)) as [->|Hbn].
    + left. split; [|done]. apply seen_before_mono. left.
    + apply IH; set_solver.
Qed.

Lemma set_adj_new_edges u v d g e seen :
  od_get u g = Some e → od_get v (n_adj e) = None →
  length (edges_from seen (set_adj u v d g))
  = (length (edges_from seen g)
     + (if decide (v ∈ seen_before u seen g) then 0 else 1))%nat.
Proof.
  intros He Hv. unfold set_adj. rewrite He.
  pose proof (edges_from_od_set u e
                {| n_attr := n_attr e; n_adj := od_set v d (n_adj e) |} g seen He) as H.
  simpl in H. rewrite (od_set_absent _ v d (n_adj e) Hv) in H |- *.
  rewrite filter_app, length_app in H. rewrite filter_cons, filter_nil in H. simpl in H.
  destruct (decide (v ∈ seen_before u seen g)) as [Hin|Hin].
  - rewrite decide_False in H by (intros Hn; by apply Hn). simpl in H. lia.
  - rewrite decide_True in H by done. simpl in H. lia.
Qed.

Lemma add_edge_new_edges a b w g :
  graph_wf g → edge_data g a b = None →
  length (edges (add_edge a b w g)) = S (length (edges g)).
Proof.
  intros Hg Hab. unfold edges, add_edge.
  set (g1 := ensure_node b (ensure_node a g)).
  assert (graph_wf g1) as Hg1 by by do 2 apply graph_wf_ensure_node.
  assert (edges_from [] g1 = edges_from [] g) as Hlen1
    by (unfold g1; by rewrite !ensure_node_edges).
  assert (edge_data g1 a b = None) as Hab1
    by (unfold g1; by rewrite !ensure_node_edge_data).
  rewrite Hab1. simpl. rewrite (right_id_L ∅ (∪)).
  assert (is_Some (od_get a g1)) as [ea Ha].
  { unfold g1. destruct (decide (b = a)) as [->|Hne].
    - apply ensure_node_get.
    - rewrite ensure_node_get_ne by done. apply ensure_node_get. }
  assert (is_Some (od_get b g1)) as [eb Hb] by apply ensure_node_get.
  assert (od_get b (n_adj ea) = None) as Hba.
  { unfold edge_data in Hab1. by rewrite Ha in Hab1. }
  pose proof (set_adj_new_edges a b w g1 ea [] Ha Hba) as H2.
  destruct (decide (a = b)) as [->|Hne].
  - rewrite decide_False in H2 by (apply seen_before_self; set_solver).
    rewrite (edges_from_length _ (set_adj b b w g1)).
    + rewrite H2, Hlen1. lia.
    + apply set_adj_graph_keys. rewrite (set_adj_edge_data _ _ _ _ _ _ _ Ha).
      by rewrite decide_True.
  - assert (od_get a (n_adj eb) = None) as Hab'.
    { destruct (od_get a (n_adj eb)) as [d|] eqn:E; [|done].
      assert (edge_data g1 b a = Some d) as Hd
        by (apply edge_data_Some; by exists eb).
      apply (wf_sym g1 Hg1) in Hd. by rewrite Hab1 in Hd. }
    assert (od_get b (set_adj a b w g1) = Some eb) as Hb2
      by by rewrite set_adj_get_ne.
    rewrite (set_adj_new_edges b a w _ eb [] Hb2 Hab'), H2, Hlen1.
    rewrite (seen_before_keys b (set_adj a b w g1) g1) by apply set_adj_nodes.
    assert (a ∈ od_keys g1) as Hka by (apply od_get_is_Some; by rewrite Ha).
    assert (b ∈ od_keys g1) as Hkb by (apply od_get_is_Some; by rewrite Hb).
    destruct (seen_before_order a b g1 [] Hne Hka Hkb) as [[H3 H4]|[H3 H4]];
      [set_solver|set_solver| |].
    + rewrite (decide_True (P := b ∈ _)) by done.
      rewrite (decide_False (P := a ∈ _)) by done. lia.
    + rewrite (decide_False (P := b ∈ _)) by done.
      rewrite (decide_True (P := a ∈ _)) by done. lia.
Qed.

(** X22: a route between two locations that have none adds exactly one
    edge: in a network the application can hold, after [add_route] on a
    pair of names without a route (present or not, equal or not) the graph
    has one edge more, the edges between other pairs are as before, and
    the locations are those of before followed by the endpoints that were
    missing. *)
Theorem add_route_new_adds_one_edge (s : Optimizer) (a b : string)
    (distance time cost : Z) :
  built s → has_edge (graph s) a b = false →
  number_of_edges (graph (add_route a b distance time cost s))
  = S (number_of_edges (graph s))
  ∧ (∀ u v, ¬ ((u = a ∧ v = b) ∨ (u = b ∧ v = a)) →
       edge_data (graph (add_route a b distance time cost s)) u v
       = edge_data (graph s) u v)
  ∧ (∀ n, has_node (graph (add_route a b distance time cost s)) n = true
          ↔ has_node (graph s) n = true ∨ n = a ∨ n = b).
Proof.
  intros Hb Hab. simpl. split; [|split].
  - apply add_edge_new_edges; [by apply built_graph_wf|].
    unfold has_edge in Hab. apply bool_decide_eq_false in Hab.
    by apply eq_None_not_Some.
  - intros u v Hne. rewrite add_edge_edge_data. by rewrite decide_False.
  - intros n. rewrite !has_node_spec. apply add_edge_is_node.
Qed.

Lemma add_route_new_adds_one_edge_witness :
  number_of_edges (graph (add_route "Warehouse" "City_E" 30 40 50 sample_optimizer))
  = S (number_of_edges (graph sample_optimizer))
  ∧ (∀ u v, ¬ ((u = "Warehouse" ∧ v = "City_E") ∨ (u = "City_E" ∧ v = "Warehouse")) →
       edge_data (graph (add_route "Warehouse" "City_E" 30 40 50 sample_optimizer)) u v
       = edge_data (graph sample_optimizer) u v)
  ∧ (∀ n, has_node (graph (add_route "Warehouse" "City_E" 30 40 50 sample_optimizer)) n
          = true
          ↔ has_node (graph sample_optimizer) n = true
            ∨ n = "Warehouse" ∨ n = "City_E").
Proof.
  apply (add_route_new_adds_one_edge sample_optimizer "Warehouse" "City_E" 30 40 50).
  - unfold sample_optimizer, initialize_sample_data. simpl.
    repeat (first [apply built_add_route | apply built_add_location]).
    apply built_empty.
  - reflexivity.
Defined.

(** *** The routes that go with a removed location *)












